(** * String-literal detection of the text-translator extension

    A shallow embedding of [StringDetector] (stringDetector.ts): the
    per-line, per-language regular-expression scanner that reports quoted
    string literals, together with the part of the ECMAScript regular
    expression semantics its patterns rely on (backtracking matchers in
    continuation-passing style, [RegExp.prototype.exec] with its
    [lastIndex] cursor, [String.prototype.trim] and [split]). *)

From Stdlib Require Import String Ascii.
From Stdlib Require Import List Arith NArith Bool Lia.
From Stdlib Require Import Sorting.Sorted.
From Stdlib Require DecimalString.
Import ListNotations.

(** ** JavaScript strings *)

(** A JavaScript string is a sequence of UTF-16 code units. *)
Definition jsstring := list N.

(** Source literals are ASCII; [js] reads one as code units. *)
Definition js (s : string) : jsstring :=
  map N_of_ascii (list_ascii_of_string s).

Module Ch.
Definition LF : N := 10.
Definition DQ : N := 34.        (* double quote *)
Definition HASH : N := 35.
Definition DOLLAR : N := 36.
Definition AMP : N := 38.
Definition SQ : N := 39.        (* single quote *)
Definition LPAR : N := 40.
Definition RPAR : N := 41.
Definition COMMA : N := 44.
Definition MINUS : N := 45.
Definition DOT : N := 46.
Definition COLON : N := 58.
Definition SEMI : N := 59.
Definition LT : N := 60.
Definition EQ : N := 61.
Definition GT : N := 62.
Definition AT : N := 64.
Definition LBRACK : N := 91.
Definition BSLASH : N := 92.
Definition RBRACK : N := 93.
Definition UNDERSCORE : N := 95.
Definition BQ : N := 96.        (* backtick *)
Definition LBRACE : N := 123.
Definition BAR : N := 124.
Definition RBRACE : N := 125.
Definition BANG : N := 33.
End Ch.

Definition jsstring_eqb (a b : jsstring) : bool :=
  if list_eq_dec N.eq_dec a b then true else false.

Definition inRange (lo hi c : N) : bool := (lo <=? c)%N && (c <=? hi)%N.

(** LineTerminator code points: LF, CR, LS, PS. *)
Definition isLineTerminator (c : N) : bool :=
  (c =? 10)%N || (c =? 13)%N || (c =? 0x2028)%N || (c =? 0x2029)%N.

(** WhiteSpace code points (TAB, VT, FF, ZWNBSP and category Zs) together
    with the line terminators: the set stripped by [trim] and matched by
    the class escape [\s]. *)
Definition isWhiteSpace (c : N) : bool :=
  (c =? 9)%N || (c =? 11)%N || (c =? 12)%N || (c =? 32)%N || (c =? 0xA0)%N
  || (c =? 0x1680)%N || inRange 0x2000 0x200A c || (c =? 0x202F)%N
  || (c =? 0x205F)%N || (c =? 0x3000)%N || (c =? 0xFEFF)%N
  || isLineTerminator c.

(** [\d] and [\w] without the unicode and ignoreCase flags. *)
Definition isDigit (c : N) : bool := inRange 48 57 c.
Definition isWordChar (c : N) : bool :=
  inRange 97 122 c || inRange 65 90 c || inRange 48 57 c || (c =? Ch.UNDERSCORE)%N.

Fixpoint trimStart (s : jsstring) : jsstring :=
  match s with
  | c :: s' => if isWhiteSpace c then trimStart s' else s
  | [] => []
  end.

Definition trimEnd (s : jsstring) : jsstring := rev (trimStart (rev s)).

(** [String.prototype.trim]. *)
Definition trim (s : jsstring) : jsstring := trimEnd (trimStart s).

(** [String.prototype.split] with a one-code-unit separator: the result
    always has at least one element. *)
Fixpoint split (sep : N) (s : jsstring) : list jsstring :=
  match s with
  | [] => [[]]
  | c :: s' =>
      if (c =? sep)%N then [] :: split sep s'
      else match split sep s' with
           | l :: ls => (c :: l) :: ls
           | [] => [[c]]
           end
  end.

(** [String.prototype.substring] for [from <= to]. *)
Definition substring (s : jsstring) (from to : nat) : jsstring :=
  firstn (to - from) (skipn from s).

(** ** Regular expressions *)

(** Members of a character class [[...]]. *)
Inductive ClassItem :=
| CChar (c : N)
| CRange (lo hi : N)
| CDigit                (* \d *)
| CWord                 (* \w *)
| CSpace                (* \s *)
| CNotSpace.            (* \S *)

Definition classItemHas (c : N) (it : ClassItem) : bool :=
  match it with
  | CChar c' => (c =? c')%N
  | CRange lo hi => inRange lo hi c
  | CDigit => isDigit c
  | CWord => isWordChar c
  | CSpace => isWhiteSpace c
  | CNotSpace => negb (isWhiteSpace c)
  end.

(** Abstract syntax of the patterns the detector uses.  [RQuant min max
    greedy r] is a quantified atom ([*] is [0, None], [+] is [1, None],
    [?] is [0, Some 1], [{2,4}] is [2, Some 4]); [RGroup n r] is the [n]th
    capturing group; a non-capturing group is plain nesting. *)
Inductive Regex :=
| REmpty
| RChar (c : N)
| RDot
| RSet (negated : bool) (items : list ClassItem)
| RBol                  (* ^ *)
| REol                  (* $ *)
| RSeq (r1 r2 : Regex)
| RAlt (r1 r2 : Regex)
| RQuant (min : nat) (max : option nat) (greedy : bool) (r : Regex)
| RGroup (n : nat) (r : Regex).

Declare Scope regex_scope.
Delimit Scope regex_scope with re.
Bind Scope regex_scope with Regex.
Notation "r1 ;; r2" := (RSeq r1 r2) (at level 61, right associativity) : regex_scope.

Definition RStar (r : Regex) : Regex := RQuant 0 None true r.
Definition RLazyStar (r : Regex) : Regex := RQuant 0 None false r.
Definition RPlus (r : Regex) : Regex := RQuant 1 None true r.
Definition ROpt (r : Regex) : Regex := RQuant 0 (Some 1) true r.

(** Indices of the capturing groups inside a pattern: the captures a
    quantifier clears before each iteration. *)
Fixpoint parens (r : Regex) : list nat :=
  match r with
  | RSeq r1 r2 | RAlt r1 r2 => parens r1 ++ parens r2
  | RQuant _ _ _ r1 => parens r1
  | RGroup n r1 => n :: parens r1
  | _ => []
  end.

(** *** Matcher semantics *)

(** The match state: the position reached in the input and, for group
    [n], the span captured so far (at list position [n - 1]). *)
Record MatchState := mkState {
  endIndex : nat;
  captures : list (option (nat * nat))
}.

Definition Continuation := MatchState -> option MatchState.
Definition Matcher := MatchState -> Continuation -> option MatchState.

Fixpoint list_set {A} (k : nat) (v : A) (l : list A) : list A :=
  match l, k with
  | [], _ => []
  | _ :: l', 0 => v :: l'
  | a :: l', S k' => a :: list_set k' v l'
  end.

Definition setCapture (n : nat) (v : option (nat * nat))
    (caps : list (option (nat * nat))) : list (option (nat * nat)) :=
  list_set (n - 1) v caps.

Definition clearCaptures (ns : list nat) (caps : list (option (nat * nat)))
    : list (option (nat * nat)) :=
  fold_left (fun cs n => setCapture n None cs) ns caps.

Definition CharacterSetMatcher (input : jsstring) (A : N -> bool) : Matcher :=
  fun x c =>
    match nth_error input (endIndex x) with
    | Some ch => if A ch then c (mkState (S (endIndex x)) (captures x)) else None
    | None => None
    end.

(** RepeatMatcher of the language specification.  An iteration that
    matches the empty string once [min] is exhausted is rejected, so every
    further call either lowers [min] or moves forward in the input; [fuel]
    bounds the number of calls. *)
Fixpoint RepeatMatcher (m : Matcher) (fuel : nat) (min : nat) (max : option nat)
    (greedy : bool) (ps : list nat) (x : MatchState) (c : Continuation)
    : option MatchState :=
  match fuel with
  | 0 => None
  | S fuel' =>
      match max with
      | Some 0 => c x
      | _ =>
          let d : Continuation := fun y =>
            if (min =? 0) && (endIndex y =? endIndex x) then None
            else RepeatMatcher m fuel' (pred min) (option_map pred max) greedy ps y c in
          let xr := mkState (endIndex x) (clearCaptures ps (captures x)) in
          if negb (min =? 0) then m xr d
          else if greedy then
            match m xr d with
            | Some z => Some z
            | None => c x
            end
          else
            match c x with
            | Some z => Some z
            | None => m xr d
            end
      end
  end.

(** Calls of [RepeatMatcher] needed at most from state [x]. *)
Definition repeatFuel (input : jsstring) (min : nat) (x : MatchState) : nat :=
  S (min + (length input - endIndex x)).

Fixpoint compile (r : Regex) (input : jsstring) : Matcher :=
  match r with
  | REmpty => fun x c => c x
  | RChar ch => CharacterSetMatcher input (N.eqb ch)
  | RDot => CharacterSetMatcher input (fun ch => negb (isLineTerminator ch))
  | RSet negated items =>
      CharacterSetMatcher input
        (fun ch => xorb negated (existsb (classItemHas ch) items))
  | RBol => fun x c => if endIndex x =? 0 then c x else None
  | REol => fun x c => if endIndex x =? length input then c x else None
  | RSeq r1 r2 => fun x c => compile r1 input x (fun y => compile r2 input y c)
  | RAlt r1 r2 => fun x c =>
      match compile r1 input x c with
      | Some y => Some y
      | None => compile r2 input x c
      end
  | RQuant min max greedy r1 => fun x c =>
      RepeatMatcher (compile r1 input) (repeatFuel input min x)
        min max greedy (parens r1) x c
  | RGroup n r1 => fun x c =>
      compile r1 input x
        (fun y => c (mkState (endIndex y)
                       (setCapture n (Some (endIndex x, endIndex y)) (captures y))))
  end.

(** *** RegExp objects *)

Record RegExp := mkRegExp {
  source : Regex;
  nCaptures : nat;
  global : bool;
  lastIndex : nat
}.

Definition setLastIndex (i : nat) (R : RegExp) : RegExp :=
  mkRegExp (source R) (nCaptures R) (global R) i.

(** The array [exec] returns: [index] and the elements [0] (the whole
    match), [1], [2], ... ([None] is [undefined]). *)
Record MatchArray := mkMatch {
  index : nat;
  elems : list (option jsstring)
}.

(** Element access: reading past the end gives [undefined]. *)
Definition at_ (m : MatchArray) (i : nat) : option jsstring := nth i (elems m) None.

(** The first start index, in the order given, at which the matcher
    succeeds. *)
Fixpoint firstMatch (m : Matcher) (n : nat) (starts : list nat)
    : option (nat * MatchState) :=
  match starts with
  | [] => None
  | i :: rest =>
      match m (mkState i (repeat None n)) (fun y => Some y) with
      | Some y => Some (i, y)
      | None => firstMatch m n rest
      end
  end.

(** RegExpBuiltinExec: start at [lastIndex] (0 unless global), move right
    until the matcher succeeds or the start passes the end of the input;
    a global RegExp has its cursor set to the end of the match, or to 0
    on failure. *)
Definition exec (R : RegExp) (S : jsstring) : option MatchArray * RegExp :=
  let start := if global R then lastIndex R else 0 in
  match firstMatch (compile (source R) S) (nCaptures R)
          (seq start (Datatypes.S (length S) - start)) with
  | None => (None, if global R then setLastIndex 0 R else R)
  | Some (i, r) =>
      let e := endIndex r in
      (Some (mkMatch i
               (Some (substring S i e)
                :: map (option_map (fun se => substring S (fst se) (snd se)))
                     (captures r))),
       if global R then setLastIndex e R else R)
  end.

(** [RegExp.prototype.test] on a freshly created, non-global literal. *)
Definition test (r : Regex) (S : jsstring) : bool :=
  match fst (exec (mkRegExp r (length (parens r)) false 0) S) with
  | Some _ => true
  | None => false
  end.

(** ** The detector *)

Record DetectedString := mkDetected {
  text : jsstring;
  line : nat;
  startChar : nat;
  endChar : nat;
  quoteType : jsstring;
  languageId : jsstring
}.

Record Pattern := mkPattern {
  name : jsstring;
  regex : RegExp
}.

(** Truthiness of a possibly undefined string, and the [||] operator on
    such values ([None] is [undefined]; the empty string is falsy). *)
Definition truthy (v : option jsstring) : bool :=
  match v with
  | Some (_ :: _) => true
  | _ => false
  end.

Definition orElse (a b : option jsstring) : option jsstring :=
  if truthy a then a else b.

Section Patterns.
Import Ch.
Local Open Scope regex_scope.

Definition lit (c : N) : Regex := RChar c.
Definition lower := CRange 97 122.   (* a-z *)
Definition upper := CRange 65 90.    (* A-Z *)
Definition digit := CRange 48 57.    (* 0-9 *)

(** The [double] literal, writing Q for the double quote:
    / Q ( [^Q\\]* ( \\. [^Q\\]* )* ) Q /g  *)
Definition doubleRegex : Regex :=
  lit DQ ;;
  RGroup 1 (RStar (RSet true [CChar DQ; CChar BSLASH]) ;;
            RStar (RGroup 2 (lit BSLASH ;; RDot ;;
                             RStar (RSet true [CChar DQ; CChar BSLASH])))) ;;
  lit DQ.

(** The [single] literal: / ' ( [^'\\]* ( \\. [^'\\]* )* ) ' /g  *)
Definition singleRegex : Regex :=
  lit SQ ;;
  RGroup 1 (RStar (RSet true [CChar SQ; CChar BSLASH]) ;;
            RStar (RGroup 2 (lit BSLASH ;; RDot ;;
                             RStar (RSet true [CChar SQ; CChar BSLASH])))) ;;
  lit SQ.

(** The [template] literal: / ` ( [^`\\]* ( \\. [^`\\]* )* ) ` /g  *)
Definition templateRegex : Regex :=
  lit BQ ;;
  RGroup 1 (RStar (RSet true [CChar BQ; CChar BSLASH]) ;;
            RStar (RGroup 2 (lit BSLASH ;; RDot ;;
                             RStar (RSet true [CChar BQ; CChar BSLASH])))) ;;
  lit BQ.

(** The [triple-double] literal, Q the double quote: / QQQ ( [\s\S]*? ) QQQ /g  *)
Definition tripleDoubleRegex : Regex :=
  lit DQ ;; lit DQ ;; lit DQ ;;
  RGroup 1 (RLazyStar (RSet false [CSpace; CNotSpace])) ;;
  lit DQ ;; lit DQ ;; lit DQ.

(** The [triple-single] literal: / ''' ( [\s\S]*? ) ''' /g  *)
Definition tripleSingleRegex : Regex :=
  lit SQ ;; lit SQ ;; lit SQ ;;
  RGroup 1 (RLazyStar (RSet false [CSpace; CNotSpace])) ;;
  lit SQ ;; lit SQ ;; lit SQ.

(** The [verbatim] literal, Q the double quote: / @Q ( [^Q]* (?: QQ [^Q]* )* ) Q /g  *)
Definition verbatimRegex : Regex :=
  lit AT ;; lit DQ ;;
  RGroup 1 (RStar (RSet true [CChar DQ]) ;;
            RStar (lit DQ ;; lit DQ ;; RStar (RSet true [CChar DQ]))) ;;
  lit DQ.

(** The heuristics of [looksLikeCode], in source order. *)
Definition codePatterns : list Regex :=
  [ (* /^[a-zA-Z_][a-zA-Z0-9_]*$/  single identifier *)
    RBol ;; RSet false [lower; upper; CChar UNDERSCORE] ;;
      RStar (RSet false [lower; upper; digit; CChar UNDERSCORE]) ;; REol;
    (* /^\d+$/  just numbers *)
    RBol ;; RPlus (RSet false [CDigit]) ;; REol;
    (* /^[\w\-\.]+\.[a-zA-Z]{2,4}$/  file extensions or URLs *)
    RBol ;; RPlus (RSet false [CWord; CChar MINUS; CChar DOT]) ;; lit DOT ;;
      RQuant 2 (Some 4) true (RSet false [lower; upper]) ;; REol;
    (* /^[#@$][\w\-]+/  CSS selectors, variables *)
    RBol ;; RSet false [CChar HASH; CChar AT; CChar DOLLAR] ;;
      RPlus (RSet false [CWord; CChar MINUS]);
    (* /[{}\[\]();,]/  code punctuation *)
    RSet false [CChar LBRACE; CChar RBRACE; CChar LBRACK; CChar RBRACK;
                CChar LPAR; CChar RPAR; CChar SEMI; CChar COMMA];
    (* /^\s*$/  empty or whitespace only *)
    RBol ;; RStar (RSet false [CSpace]) ;; REol;
    (* /^[\w\s]*:\s*[\w\s]*$/  key-value pairs *)
    RBol ;; RStar (RSet false [CWord; CSpace]) ;; lit COLON ;;
      RStar (RSet false [CSpace]) ;; RStar (RSet false [CWord; CSpace]) ;; REol;
    (* /^\w+\(.*\)$/  function calls *)
    RBol ;; RPlus (RSet false [CWord]) ;; lit LPAR ;; RStar RDot ;;
      lit RPAR ;; REol;
    (* /^[<>]=?|[!=]=|[&|]{2}/  operators *)
    RAlt (RBol ;; RSet false [CChar LT; CChar GT] ;; ROpt (lit EQ))
      (RAlt (RSet false [CChar BANG; CChar EQ] ;; lit EQ)
            (RQuant 2 (Some 2) true (RSet false [CChar AMP; CChar BAR])))
  ].
End Patterns.

Definition looksLikeCode (text : jsstring) : bool :=
  existsb (fun pattern => test pattern text) codePatterns.

(** A regular expression literal with the [g] flag: a fresh object whose
    cursor is at 0. *)
Definition literalG (r : Regex) : RegExp :=
  mkRegExp r (length (parens r)) true 0.

Definition isOneOf (s : jsstring) (tags : list string) : bool :=
  existsb (fun t => jsstring_eqb s (js t)) tags.

Definition getStringPatterns (languageId : jsstring) : list Pattern :=
  let patterns :=
    [ mkPattern (js "double") (literalG doubleRegex);
      mkPattern (js "single") (literalG singleRegex) ] in
  if isOneOf languageId
       ["javascript"; "typescript"; "javascriptreact"; "typescriptreact"]%string
  then patterns ++ [ mkPattern (js "template") (literalG templateRegex) ]
  else if isOneOf languageId ["python"]%string
  then (patterns ++ [ mkPattern (js "triple-double") (literalG tripleDoubleRegex) ])
         ++ [ mkPattern (js "triple-single") (literalG tripleSingleRegex) ]
  else if isOneOf languageId ["csharp"; "fsharp"]%string
  then patterns ++ [ mkPattern (js "verbatim") (literalG verbatimRegex) ]
  else if isOneOf languageId ["php"]%string
  then patterns
  else patterns.

(** The [while ((match = pattern.regex.exec(line)) !== null)] loop for one
    pattern.  Each turn calls [exec] once; [fuel] bounds the number of
    turns.  A content that is [undefined] or empty, shorter than two code
    units once trimmed, or code-like is skipped ([continue]).  The result
    carries the pattern object as the loop leaves it. *)
Fixpoint scanPattern (fuel : nat) (pattern : Pattern) (line : jsstring)
    (lineIndex : nat) (languageId : jsstring) (strings : list DetectedString)
    : list DetectedString * Pattern :=
  match fuel with
  | 0 => (strings, pattern)
  | S fuel' =>
      match exec (regex pattern) line with
      | (None, R') => (strings, mkPattern (name pattern) R')
      | (Some match_, R') =>
          let pattern' := mkPattern (name pattern) R' in
          let fullMatch := match at_ match_ 0 with Some s => s | None => [] end in
          let stringContent :=
            orElse (orElse (at_ match_ 1) (at_ match_ 2)) (at_ match_ 3) in
          match stringContent with
          | Some ((_ :: _) as content) =>
              if length (trim content) <? 2 then
                scanPattern fuel' pattern' line lineIndex languageId strings
              else if looksLikeCode content then
                scanPattern fuel' pattern' line lineIndex languageId strings
              else
                let strings' :=
                  strings ++ [ mkDetected content lineIndex (index match_)
                                 (index match_ + length fullMatch)
                                 (name pattern) languageId ] in
                if negb (global R') then (strings', pattern')
                else scanPattern fuel' pattern' line lineIndex languageId strings'
          | _ => scanPattern fuel' pattern' line lineIndex languageId strings
          end
      end
  end.

(** The [for (const pattern of patterns)] loop: scan, then reset the
    pattern's cursor.  Returns the strings and the pattern objects as
    they are left. *)
Fixpoint scanPatterns (patterns : list Pattern) (line : jsstring)
    (lineIndex : nat) (languageId : jsstring) (strings : list DetectedString)
    : list DetectedString * list Pattern :=
  match patterns with
  | [] => (strings, [])
  | pattern :: rest =>
      let '(strings', pattern') :=
        scanPattern (S (length line)) pattern line lineIndex languageId strings in
      let pattern'' := mkPattern (name pattern') (setLastIndex 0 (regex pattern')) in
      let '(strings'', rest') :=
        scanPatterns rest line lineIndex languageId strings' in
      (strings'', pattern'' :: rest')
  end.

Definition extractStringsFromLine (line : jsstring) (lineIndex : nat)
    (languageId : jsstring) : list DetectedString :=
  fst (scanPatterns (getStringPatterns languageId) line lineIndex languageId []).

(** *** Detector object, logger and document *)

Module vscode.
Record TextDocument := mkDocument {
  fileName : jsstring;
  getText : jsstring;
  languageId : jsstring
}.
End vscode.

(** What the logger appends to its output channel.  The time stamp is
    left out; the interpolated messages are kept by their parts. *)
Inductive Message :=
| MsgDetecting (fileName : jsstring)      (* `Detecting strings in ${fileName}` *)
| MsgDetected (count : nat)               (* `Detected ${count} strings` *)
| MsgErrorDetecting.                      (* 'Error detecting strings' *)

Section Detector.
(** Values a [throw] can carry. *)
Variable Exn : Type.

Inductive LogEntry :=
| Log (message : Message)
| LogError (message : Message) (error : Exn).

Record StringDetector := mkDetector {
  detectedStrings : list DetectedString;
  logger : list LogEntry
}.

Definition logLine (e : LogEntry) (this : StringDetector) : StringDetector :=
  mkDetector (detectedStrings this) (logger this ++ [e]).

(** The per-line step of the scanning loop: it returns the strings of
    the line or throws. *)
Variable extract : jsstring -> nat -> jsstring -> Exn + list DetectedString.

(** The [for] loop over the lines, pushing onto [this.detectedStrings];
    an exception leaves the loop at once. *)
Fixpoint scanLines (lines : list jsstring) (lineIndex : nat)
    (languageId : jsstring) (this : StringDetector)
    : option Exn * StringDetector :=
  match lines with
  | [] => (None, this)
  | line :: rest =>
      match extract line lineIndex languageId with
      | inl error => (Some error, this)
      | inr stringsInLine =>
          scanLines rest (S lineIndex) languageId
            (mkDetector (detectedStrings this ++ stringsInLine) (logger this))
      end
  end.

(** [detectStrings] with its [try]/[catch]: the value the promise
    resolves to, and the detector afterwards. *)
Definition detectStringsWith (document : vscode.TextDocument)
    (this : StringDetector) : list DetectedString * StringDetector :=
  let this := mkDetector [] (logger this) in
  let this := logLine (Log (MsgDetecting (vscode.fileName document))) this in
  let text := vscode.getText document in
  let lines := split Ch.LF text in
  match scanLines lines 0 (vscode.languageId document) this with
  | (None, this) =>
      let this := logLine (Log (MsgDetected (length (detectedStrings this)))) this in
      (detectedStrings this, this)
  | (Some error, this) =>
      let this := logLine (LogError MsgErrorDetecting error) this in
      ([], this)
  end.
End Detector.

Arguments Log {Exn} message.
Arguments LogError {Exn} message error.
Arguments mkDetector {Exn} detectedStrings logger.
Arguments detectedStrings {Exn} s.
Arguments logger {Exn} s.
Arguments logLine {Exn} e this.
Arguments scanLines {Exn} extract lines lineIndex languageId this.
Arguments detectStringsWith {Exn} extract document this.

(** The detector's own step is [extractStringsFromLine], which throws
    nothing. *)
Definition detectStrings {Exn} (document : vscode.TextDocument)
    (this : StringDetector Exn) : list DetectedString * StringDetector Exn :=
  detectStringsWith
    (fun line lineIndex languageId =>
       inr (extractStringsFromLine line lineIndex languageId))
    document this.

(** [detect documentText languageId]: the result of [detectStrings] on a
    new detector. *)
Definition detect (documentText languageId : jsstring) : list DetectedString :=
  fst (detectStrings (vscode.mkDocument [] documentText languageId)
         (mkDetector (Exn := unit) [] [])).

(** Source text with its quotation marks: [dq s] is [s] between double
    quotes. *)
Definition dq (s : jsstring) : jsstring := [Ch.DQ] ++ s ++ [Ch.DQ].

(** ** Notions used to reason about matchers *)

Definition inBounds (input : jsstring) (x : MatchState) : Prop :=
  endIndex x <= length input.

(** A matcher resumes its continuation only at or to the right of the
    state it was entered in, and inside the input. *)
Definition Progressive (input : jsstring) (m : Matcher) : Prop :=
  forall x c z, inBounds input x -> m x c = Some z ->
    exists y, endIndex x <= endIndex y /\ inBounds input y /\ c y = Some z.

Definition StrictlyProgressive (input : jsstring) (m : Matcher) : Prop :=
  forall x c z, inBounds input x -> m x c = Some z ->
    exists y, endIndex x < endIndex y /\ inBounds input y /\ c y = Some z.

(** The result of a matcher depends on its continuation only at the
    states it can resume it in. *)
Definition Local (input : jsstring) (m : Matcher) : Prop :=
  forall x c1 c2, inBounds input x ->
    (forall y, endIndex x <= endIndex y -> inBounds input y -> c1 y = c2 y) ->
    m x c1 = m x c2.


(** A syntactic check that every match of a pattern takes at least one
    code unit. *)
Fixpoint consumes (r : Regex) : bool :=
  match r with
  | RChar _ | RDot | RSet _ _ => true
  | RSeq r1 r2 => consumes r1 || consumes r2
  | RAlt r1 r2 => consumes r1 && consumes r2
  | RQuant min max _ r1 =>
      (1 <=? min)
      && match max with Some 0 => false | _ => true end
      && consumes r1
  | RGroup _ r1 => consumes r1
  | _ => false
  end.

(** The patterns the line scan is meant for: global, and never matching
    the empty string. *)
Definition wellFormed (p : Pattern) : Prop :=
  global (regex p) = true /\ consumes (source (regex p)) = true.

(** What the scan of one pattern promises of a detection [d] it emits
    when its cursor was at [from]. *)
Definition emittedBy (nm rawLine : jsstring) (lineIndex : nat)
    (lang : jsstring) (from : nat) (d : DetectedString) : Prop :=
  line d = lineIndex /\ quoteType d = nm /\ languageId d = lang
  /\ from <= startChar d /\ startChar d < endChar d
  /\ endChar d <= length rawLine
  /\ 2 <= length (trim (text d)) /\ looksLikeCode (text d) = false.

(** The detections one pattern contributes on a line. *)
Definition matchesOf (rawLine : jsstring) (lineIndex : nat) (lang : jsstring)
    (p : Pattern) : list DetectedString :=
  fst (scanPattern (S (length rawLine)) p rawLine lineIndex lang []).

(** The detections of consecutive lines, the first of which has index
    [lineIndex]. *)
Fixpoint collect (lines : list jsstring) (lineIndex : nat) (lang : jsstring)
    : list DetectedString :=
  match lines with
  | [] => []
  | l :: rest =>
      extractStringsFromLine l lineIndex lang ++ collect rest (S lineIndex) lang
  end.

(** Position of a quote type among the pattern names of a language: the
    order in which the patterns are applied. *)
Fixpoint indexOf (q : jsstring) (names : list jsstring) : nat :=
  match names with
  | [] => 0
  | n :: rest => if jsstring_eqb q n then 0 else S (indexOf q rest)
  end.

Definition patternRank (lang : jsstring) (d : DetectedString) : nat :=
  indexOf (quoteType d) (map name (getStringPatterns lang)).

(** The order the scan produces: by line, then by pattern, then by
    column. *)
Definition scanOrder (lang : jsstring) (a b : DetectedString) : Prop :=
  line a < line b
  \/ (line a = line b
      /\ (patternRank lang a < patternRank lang b
          \/ (patternRank lang a = patternRank lang b
              /\ startChar a < startChar b))).

(** The order by line, then by column, the pattern order deciding only
    between detections that start at the same column. *)
Definition positionOrder (lang : jsstring) (a b : DetectedString) : Prop :=
  line a < line b
  \/ (line a = line b
      /\ (startChar a < startChar b
          \/ (startChar a = startChar b
              /\ patternRank lang a <= patternRank lang b))).

(** The characters of the code-punctuation heuristic. *)
Definition codePunctuation : list N :=
  [Ch.LBRACE; Ch.RBRACE; Ch.LBRACK; Ch.RBRACK; Ch.LPAR; Ch.RPAR; Ch.SEMI; Ch.COMMA].

(** The language tags that select the template pattern, and all the tags
    that have a [case] in [getStringPatterns]. *)
Definition ecmaScriptTags : list string :=
  ["javascript"; "typescript"; "javascriptreact"; "typescriptreact"]%string.

Definition recognized (languageId : jsstring) : bool :=
  isOneOf languageId
    (ecmaScriptTags ++ ["python"; "csharp"; "fsharp"; "php"]%string).

Definition withLanguageId (lang : jsstring) (d : DetectedString) : DetectedString :=
  mkDetected (text d) (line d) (startChar d) (endChar d) (quoteType d) lang.

(** The two patterns every language has. *)
Definition basePatterns : list Pattern :=
  [ mkPattern (js "double") (literalG doubleRegex);
    mkPattern (js "single") (literalG singleRegex) ].

(** ** Sample lines *)

(** [const greeting = Q Hello, world! Q ;] with Q the double quote. *)
Definition greetingLine : jsstring :=
  js "const greeting = " ++ dq (js "Hello, world!") ++ js ";".

(** The body of the verbatim sample: [a QQquotedQQ word]. *)
Definition verbatimBody : jsstring :=
  js "a " ++ dq (dq (js "quoted")) ++ js " word".

(** [@Q a QQquotedQQ word Q]. *)
Definition verbatimLine : jsstring := js "@" ++ dq verbatimBody.

Definition templateLine : jsstring := js "`hi there`".

(** A single-quoted literal followed by a double-quoted one. *)
Definition mixedLine : jsstring := js "'ab cd' " ++ dq (js "ef gh").

(** ** Delimiters and captured spans *)

(** A pattern that opens with the literals [op]. *)
Fixpoint lits (cs : list N) (r : Regex) : Regex :=
  match cs with
  | [] => r
  | c :: rest => RSeq (RChar c) (lits rest r)
  end.

(** The literals [cs] as the tail of a pattern. *)
Fixpoint closing (cs : list N) : Regex :=
  match cs with
  | [] => REmpty
  | [c] => RChar c
  | c :: rest => RSeq (RChar c) (closing rest)
  end.

(** The shape all six string patterns share: opening literals, the body
    as capturing group 1, closing literals. *)
Definition delimited (op : list N) (body : Regex) (cl : list N) : Regex :=
  lits op (RSeq (RGroup 1 body) (closing cl)).

(** The delimiters of each quote type, read off the patterns of
    [getStringPatterns]. *)
Definition delimitersOf (quoteType : jsstring) : jsstring * jsstring :=
  if jsstring_eqb quoteType (js "double") then ([Ch.DQ], [Ch.DQ])
  else if jsstring_eqb quoteType (js "single") then ([Ch.SQ], [Ch.SQ])
  else if jsstring_eqb quoteType (js "template") then ([Ch.BQ], [Ch.BQ])
  else if jsstring_eqb quoteType (js "triple-double")
  then ([Ch.DQ; Ch.DQ; Ch.DQ], [Ch.DQ; Ch.DQ; Ch.DQ])
  else if jsstring_eqb quoteType (js "triple-single")
  then ([Ch.SQ; Ch.SQ; Ch.SQ], [Ch.SQ; Ch.SQ; Ch.SQ])
  else if jsstring_eqb quoteType (js "verbatim") then ([Ch.AT; Ch.DQ], [Ch.DQ])
  else ([], []).

(** A captured span lies between [lo] and [hi]. *)
Definition spanWithin (lo hi : nat) (c : option (nat * nat)) : Prop :=
  match c with
  | Some (s, e) => lo <= s /\ s <= e /\ e <= hi
  | None => True
  end.

(** A state with [n] capture slots, every captured span lying between
    [lo] and the position reached. *)
Definition capsWithin (n lo : nat) (x : MatchState) : Prop :=
  length (captures x) = n /\ Forall (spanWithin lo (endIndex x)) (captures x).

(** A matcher that keeps [capsWithin] from the state it is entered in to
    the state it resumes its continuation in. *)
Definition Keeps (input : jsstring) (n lo : nat) (m : Matcher) : Prop :=
  forall x c z,
    inBounds input x -> lo <= endIndex x -> capsWithin n lo x ->
    m x c = Some z ->
    exists y, endIndex x <= endIndex y /\ inBounds input y
              /\ capsWithin n lo y /\ c y = Some z.


(** The characters one of which opens every string pattern. *)
Definition quoteChars : list N := [Ch.DQ; Ch.SQ; Ch.BQ].

(** ** Shapes of literal contents *)

(** A single identifier: a letter or underscore, then letters, digits
    and underscores. *)
Definition isIdentifier (t : jsstring) : bool :=
  match t with
  | [] => false
  | c :: rest =>
      (inRange 97 122 c || inRange 65 90 c || (c =? Ch.UNDERSCORE)%N)
      && forallb isWordChar rest
  end.

(** One or more decimal digits and nothing else. *)
Definition isNumber (t : jsstring) : bool :=
  match t with
  | [] => false
  | _ :: _ => forallb isDigit t
  end.



(** ** The stored result set *)

Definition getDetectedStrings {Exn} (this : StringDetector Exn)
    : list DetectedString :=
  detectedStrings this.

(** ** Joining and the mock transforms of translationManager.ts *)

(** [Array.prototype.join] on an array of strings. *)
Fixpoint join (sep : jsstring) (parts : list jsstring) : jsstring :=
  match parts with
  | [] => []
  | [p] => p
  | p :: rest => p ++ sep ++ join sep rest
  end.

(** The [Concise] entry of [mockEnhancements]:
    [text.split(' ').slice(0, Math.max(1, Math.floor(n / 2))).join(' ') + '...']
    with [n] the number of pieces. *)
Definition conciseEnhancer (text : jsstring) : jsstring :=
  join [32%N]
    (firstn (Nat.max 1 (length (split 32%N text) / 2)) (split 32%N text))
  ++ js "...".

(** The quote types of the two base patterns. *)
Definition isBaseKind (d : DetectedString) : bool :=
  jsstring_eqb (quoteType d) (js "double")
  || jsstring_eqb (quoteType d) (js "single").

(** ** The list presenter (stringTreeProvider.ts) and the item commands
       (extension.ts) *)

(** A number inside a template literal, for the non-negative integers
    below 10^21 (from there on JavaScript prints an exponent). *)
Definition numberToString (n : nat) : jsstring :=
  js (DecimalString.NilZero.string_of_uint (Nat.to_uint n)).

(** [vscode.Position], [vscode.Range] and [vscode.Selection] of the
    editor API.  [new vscode.Range(a, b)] puts the earlier of the two
    positions first. *)
Record Position := mkPosition { posLine : nat; character : nat }.

Definition isBefore (a b : Position) : bool :=
  (posLine a <? posLine b)
  || ((posLine a =? posLine b) && (character a <? character b)).

Record Range := mkRange { rangeStart : Position; rangeEnd : Position }.

Definition newRange (a b : Position) : Range :=
  if isBefore b a then mkRange b a else mkRange a b.

Record Selection := mkSelection { anchor : Position; active : Position }.

Record Command := mkCommand {
  command : jsstring;
  title : jsstring;
  targetUri : option jsstring;       (* activeTextEditor?.document.uri *)
  selection : Range
}.

(** A [StringItem]; [collapsibleState] is always [None] and is left
    out. *)
Record StringItem := mkStringItem {
  label : jsstring;
  detectedString : DetectedString;
  description : jsstring;
  tooltip : jsstring;
  iconPath : jsstring;                (* the id of the ThemeIcon *)
  contextValue : jsstring;
  itemCommand : Command
}.

(** The getters of [StringItem]. *)
Definition item_text (i : StringItem) : jsstring := text (detectedString i).
Definition item_line (i : StringItem) : nat := line (detectedString i).
Definition item_startChar (i : StringItem) : nat := startChar (detectedString i).
Definition item_endChar (i : StringItem) : nat := endChar (detectedString i).

Definition createStringItems (activeUri : option jsstring)
    (detectedStrings : list DetectedString) : list StringItem :=
  map (fun detectedString =>
         mkStringItem
           (text detectedString)
           detectedString
           (js "Line " ++ numberToString (line detectedString + 1)
            ++ js " (" ++ quoteType detectedString ++ js ")")
           (js "Text: " ++ dq (text detectedString) ++ [Ch.LF]
            ++ js "Line: " ++ numberToString (line detectedString + 1) ++ [Ch.LF]
            ++ js "Quote Type: " ++ quoteType detectedString ++ [Ch.LF]
            ++ js "Language: " ++ languageId detectedString)
           (js "symbol-string")
           (js "stringItem")
           (mkCommand (js "vscode.open") (js "Go to string") activeUri
              (newRange
                 (mkPosition (line detectedString) (startChar detectedString))
                 (mkPosition (line detectedString) (endChar detectedString)))))
      detectedStrings.

(** [getChildren]: the items of the stored detections at the root, no
    children below an item. *)
Definition getChildren {Exn} (element : option StringItem)
    (activeUri : option jsstring) (stringDetector : StringDetector Exn)
    : list StringItem :=
  match element with
  | None => createStringItems activeUri (getDetectedStrings stringDetector)
  | Some _ => []
  end.

(** What a command handler of extension.ts ends in. *)
Inductive Outcome :=
| Ignored                                   (* plain [return] *)
| Warning (message : jsstring)              (* showWarningMessage *)
| Information (message : jsstring)          (* showInformationMessage *)
| TranslateText (text : jsstring) (selection : Selection)
| EnhanceText (text : jsstring) (selection : Selection).

(** [handleTranslateString] and [handleEnhanceString]; [editorOpen] says
    whether there is an active text editor. *)
Definition handleTranslateString (stringItem : option StringItem)
    (editorOpen : bool) : Outcome :=
  match stringItem with
  | None => Ignored
  | Some item =>
      if negb (truthy (Some (item_text item))) then Ignored
      else if negb editorOpen then Warning (js "No active editor found")
      else
        let range :=
          newRange (mkPosition (item_line item) (item_startChar item))
                   (mkPosition (item_line item) (item_endChar item)) in
        TranslateText (item_text item)
          (mkSelection (rangeStart range) (rangeEnd range))
  end.

Definition handleEnhanceString (stringItem : option StringItem)
    (editorOpen : bool) : Outcome :=
  match stringItem with
  | None => Ignored
  | Some item =>
      if negb (truthy (Some (item_text item))) then Ignored
      else if negb editorOpen then Warning (js "No active editor found")
      else
        let range :=
          newRange (mkPosition (item_line item) (item_startChar item))
                   (mkPosition (item_line item) (item_endChar item)) in
        EnhanceText (item_text item)
          (mkSelection (rangeStart range) (rangeEnd range))
  end.






(** ** Properties of the matchers *)

Section MatcherTheory.
Variable input : jsstring.

Lemma strict_progressive m : StrictlyProgressive input m -> Progressive input m.
Proof.
  intros Hm x c z Hx Hz. destruct (Hm x c z Hx Hz) as (y & Hy & Hb & Hc).
  exists y. repeat split; auto; lia.
Qed.

Lemma CharacterSetMatcher_strict A :
  StrictlyProgressive input (CharacterSetMatcher input A).
Proof.
  intros x c z Hx. unfold CharacterSetMatcher.
  destruct (nth_error input (endIndex x)) as [ch|] eqn:E; [|discriminate].
  destruct (A ch); [|discriminate]. intros Hz.
  exists (mkState (S (endIndex x)) (captures x)); simpl.
  assert (endIndex x < length input) by (apply nth_error_Some; congruence).
  unfold inBounds; simpl. repeat split; auto; lia.
Qed.

Lemma CharacterSetMatcher_local A : Local input (CharacterSetMatcher input A).
Proof.
  intros x c1 c2 Hx H. unfold CharacterSetMatcher.
  destruct (nth_error input (endIndex x)) as [ch|] eqn:E; [|reflexivity].
  destruct (A ch); [|reflexivity].
  assert (endIndex x < length input) by (apply nth_error_Some; congruence).
  apply H; unfold inBounds; simpl; lia.
Qed.

Section Repeat.
Variable m : Matcher.
Hypothesis m_progressive : Progressive input m.
Hypothesis m_local : Local input m.

Lemma RepeatMatcher_progressive fuel :
  forall min max greedy ps x c z, inBounds input x ->
    RepeatMatcher m fuel min max greedy ps x c = Some z ->
    exists y, endIndex x <= endIndex y /\ inBounds input y /\ c y = Some z.
Proof.
  induction fuel as [|fuel IH]; intros min max greedy ps x c z Hx; simpl;
    [discriminate|].
  set (d := fun y : MatchState =>
              if (min =? 0) && (endIndex y =? endIndex x) then None
              else RepeatMatcher m fuel (pred min) (option_map pred max)
                     greedy ps y c).
  set (xr := mkState (endIndex x) (clearCaptures ps (captures x))).
  assert (Hstay : c x = Some z ->
            exists y, endIndex x <= endIndex y /\ inBounds input y /\ c y = Some z)
    by (intros; exists x; auto).
  assert (Hiter : m xr d = Some z ->
            exists y, endIndex x <= endIndex y /\ inBounds input y /\ c y = Some z).
  { intros Hz. destruct (m_progressive xr d z Hx Hz) as (y & Hy & Hb & Hd).
    unfold d in Hd.
    destruct ((min =? 0) && (endIndex y =? endIndex x)); [discriminate|].
    destruct (IH _ _ _ _ _ _ _ Hb Hd) as (y' & Hy' & Hb' & Hc).
    exists y'. simpl in Hy. repeat split; auto; lia. }
  assert (Hbody :
    (if negb (min =? 0) then m xr d
     else if greedy then match m xr d with Some z0 => Some z0 | None => c x end
     else match c x with Some z0 => Some z0 | None => m xr d end) = Some z ->
    exists y, endIndex x <= endIndex y /\ inBounds input y /\ c y = Some z).
  { destruct (negb (min =? 0)); auto.
    destruct greedy.
    - destruct (m xr d) eqn:E; auto; intros Hz; apply Hiter; congruence.
    - destruct (c x) eqn:E; auto. }
  destruct max as [[|k]|]; auto.
Qed.

Lemma RepeatMatcher_local fuel :
  forall min max greedy ps x c1 c2, inBounds input x ->
    (forall y, endIndex x <= endIndex y -> inBounds input y -> c1 y = c2 y) ->
    RepeatMatcher m fuel min max greedy ps x c1
    = RepeatMatcher m fuel min max greedy ps x c2.
Proof.
  induction fuel as [|fuel IH]; intros min max greedy ps x c1 c2 Hx H; simpl;
    [reflexivity|].
  set (xr := mkState (endIndex x) (clearCaptures ps (captures x))).
  assert (Hc : c1 x = c2 x) by (apply H; auto).
  set (d1 := fun y : MatchState =>
               if (min =? 0) && (endIndex y =? endIndex x) then None
               else RepeatMatcher m fuel (pred min) (option_map pred max)
                      greedy ps y c1).
  set (d2 := fun y : MatchState =>
               if (min =? 0) && (endIndex y =? endIndex x) then None
               else RepeatMatcher m fuel (pred min) (option_map pred max)
                      greedy ps y c2).
  assert (Hd : m xr d1 = m xr d2).
  { apply m_local; [exact Hx|]. unfold d1, d2. simpl. intros y Hy Hb.
    destruct ((min =? 0) && (endIndex y =? endIndex x)); [reflexivity|].
    apply IH; auto. intros y' Hy' Hb'. apply H; auto; lia. }
  rewrite Hd, Hc. reflexivity.
Qed.

(** Enough fuel: any two amounts above [min] plus the input left give
    the same result, so the bound in [compile] never cuts a match. *)
Lemma RepeatMatcher_fuel f1 :
  forall f2 min max greedy ps x c, inBounds input x ->
    min + (length input - endIndex x) < f1 ->
    min + (length input - endIndex x) < f2 ->
    RepeatMatcher m f1 min max greedy ps x c
    = RepeatMatcher m f2 min max greedy ps x c.
Proof.
  induction f1 as [|f1 IH]; intros f2 min max greedy ps x c Hx H1 H2;
    [lia|].
  destruct f2 as [|f2]; [lia|]. simpl.
  set (xr := mkState (endIndex x) (clearCaptures ps (captures x))).
  set (d1 := fun y : MatchState =>
               if (min =? 0) && (endIndex y =? endIndex x) then None
               else RepeatMatcher m f1 (pred min) (option_map pred max)
                      greedy ps y c).
  set (d2 := fun y : MatchState =>
               if (min =? 0) && (endIndex y =? endIndex x) then None
               else RepeatMatcher m f2 (pred min) (option_map pred max)
                      greedy ps y c).
  assert (Hd : m xr d1 = m xr d2).
  { apply m_local; [exact Hx|]. unfold d1, d2. simpl. intros y Hy Hb.
    destruct (min =? 0) eqn:Emin; simpl.
    - destruct (endIndex y =? endIndex x) eqn:Ey; [reflexivity|].
      apply Nat.eqb_eq in Emin. apply Nat.eqb_neq in Ey.
      unfold inBounds in *. apply IH; auto; subst min; simpl; lia.
    - apply Nat.eqb_neq in Emin. unfold inBounds in *.
      apply IH; auto; lia. }
  rewrite Hd. reflexivity.
Qed.
End Repeat.

Lemma RepeatMatcher_strict m fuel min max greedy ps :
  Progressive input m -> StrictlyProgressive input m -> 1 <= min ->
  forall x c z, inBounds input x ->
    RepeatMatcher m fuel min max greedy ps x c = Some z ->
    max = Some 0 \/
    exists y, endIndex x < endIndex y /\ inBounds input y /\ c y = Some z.
Proof.
  intros Hp Hs Hmin x c z Hx. destruct fuel as [|fuel]; simpl; [discriminate|].
  destruct (min =? 0) eqn:Emin; [apply Nat.eqb_eq in Emin; lia|]. simpl.
  intros Hz.
  assert (Hiter : forall max',
            m (mkState (endIndex x) (clearCaptures ps (captures x)))
              (fun y : MatchState =>
                 RepeatMatcher m fuel (pred min) max' greedy ps y c) = Some z ->
            exists y, endIndex x < endIndex y /\ inBounds input y /\ c y = Some z).
  { intros max' Hd.
    destruct (Hs (mkState (endIndex x) (clearCaptures ps (captures x))) _ _ Hx Hd)
      as (y & Hy & Hb & Hr).
    destruct (RepeatMatcher_progressive m Hp _ _ _ _ _ _ _ _ Hb Hr)
      as (y' & Hy' & Hb' & Hc).
    exists y'. simpl in Hy. repeat split; auto; lia. }
  destruct max as [[|k]|]; [left; reflexivity | right | right];
    exact (Hiter _ Hz).
Qed.

Lemma compile_progressive r : Progressive input (compile r input).
Proof.
  induction r as [| ch | | neg items | | | r1 IH1 r2 IH2 | r1 IH1 r2 IH2
                 | min max greedy r IH | n r IH]; cbn [compile].
  - intros x c z Hx Hz. exists x; auto.
  - apply strict_progressive, CharacterSetMatcher_strict.
  - apply strict_progressive, CharacterSetMatcher_strict.
  - apply strict_progressive, CharacterSetMatcher_strict.
  - intros x c z Hx. destruct (endIndex x =? 0); [|discriminate].
    intros; exists x; auto.
  - intros x c z Hx. destruct (endIndex x =? length input); [|discriminate].
    intros; exists x; auto.
  - intros x c z Hx Hz.
    destruct (IH1 _ _ _ Hx Hz) as (y & Hy & Hb & Hc).
    destruct (IH2 _ _ _ Hb Hc) as (y' & Hy' & Hb' & Hc').
    exists y'. repeat split; auto; lia.
  - intros x c z Hx. destruct (compile r1 input x c) eqn:E.
    + intros Hz. apply (IH1 _ _ _ Hx). congruence.
    + apply (IH2 _ _ _ Hx).
  - intros x c z Hx. apply RepeatMatcher_progressive; auto.
  - intros x c z Hx Hz. destruct (IH _ _ _ Hx Hz) as (y & Hy & Hb & Hc).
    eexists; split; [|split; [|exact Hc]]; simpl; auto.
Qed.

Lemma compile_local r : Local input (compile r input).
Proof.
  induction r as [| ch | | neg items | | | r1 IH1 r2 IH2 | r1 IH1 r2 IH2
                 | min max greedy r IH | n r IH]; cbn [compile].
  - intros x c1 c2 Hx H. apply H; auto.
  - apply CharacterSetMatcher_local.
  - apply CharacterSetMatcher_local.
  - apply CharacterSetMatcher_local.
  - intros x c1 c2 Hx H. destruct (endIndex x =? 0); auto.
  - intros x c1 c2 Hx H. destruct (endIndex x =? length input); auto.
  - intros x c1 c2 Hx H. apply IH1; [exact Hx|]. intros y Hy Hb.
    apply IH2; [exact Hb|]. intros y' Hy' Hb'. apply H; auto; lia.
  - intros x c1 c2 Hx H. rewrite (IH1 x c1 c2 Hx H), (IH2 x c1 c2 Hx H).
    reflexivity.
  - intros x c1 c2 Hx H. apply RepeatMatcher_local; auto.
  - intros x c1 c2 Hx H. apply IH; [exact Hx|]. intros y Hy Hb.
    apply H; simpl; auto.
Qed.

(** The fuel [compile] hands to a quantifier is enough: more changes
    nothing. *)
Lemma compile_quant_fuel min max greedy r n x c :
  inBounds input x -> repeatFuel input min x <= n ->
  compile (RQuant min max greedy r) input x c
  = RepeatMatcher (compile r input) n min max greedy (parens r) x c.
Proof.
  intros Hx Hn. cbn [compile]. unfold repeatFuel in *.
  apply RepeatMatcher_fuel; auto using compile_local; lia.
Qed.
End MatcherTheory.

(** ** Properties of [exec] *)

Lemma compile_strict input r :
  consumes r = true -> StrictlyProgressive input (compile r input).
Proof.
  induction r as [| ch | | neg items | | | r1 IH1 r2 IH2 | r1 IH1 r2 IH2
                 | min max greedy r IH | n r IH]; cbn [compile consumes];
    try discriminate; intros Hc.
  - apply CharacterSetMatcher_strict.
  - apply CharacterSetMatcher_strict.
  - apply CharacterSetMatcher_strict.
  - intros x c z Hx Hz. apply orb_true_iff in Hc. destruct Hc as [Hc|Hc].
    + destruct (IH1 Hc _ _ _ Hx Hz) as (y & Hy & Hb & Hk).
      destruct (compile_progressive input r2 _ _ _ Hb Hk) as (y' & Hy' & Hb' & Hk').
      exists y'. repeat split; auto; lia.
    + destruct (compile_progressive input r1 _ _ _ Hx Hz) as (y & Hy & Hb & Hk).
      destruct (IH2 Hc _ _ _ Hb Hk) as (y' & Hy' & Hb' & Hk').
      exists y'. repeat split; auto; lia.
  - apply andb_true_iff in Hc. destruct Hc as [Hc1 Hc2].
    intros x c z Hx. destruct (compile r1 input x c) eqn:E.
    + intros Hz. apply (IH1 Hc1 _ _ _ Hx). congruence.
    + apply (IH2 Hc2 _ _ _ Hx).
  - apply andb_true_iff in Hc. destruct Hc as [Hc Hc3].
    apply andb_true_iff in Hc. destruct Hc as [Hc1 Hc2].
    apply Nat.leb_le in Hc1. intros x c z Hx Hz.
    destruct (RepeatMatcher_strict input (compile r input)
                (repeatFuel input min x) min max greedy (parens r)
                (compile_progressive input r) (IH Hc3) Hc1 x c z Hx Hz)
      as [Hmax|H]; [|exact H].
    subst max. discriminate.
  - intros x c z Hx Hz. destruct (IH Hc _ _ _ Hx Hz) as (y & Hy & Hb & Hk).
    eexists; split; [|split; [|exact Hk]]; simpl; auto.
Qed.

Lemma firstMatch_some m n starts i y :
  firstMatch m n starts = Some (i, y) ->
  In i starts /\ m (mkState i (repeat None n)) (fun y => Some y) = Some y.
Proof.
  induction starts as [|j rest IH]; simpl; [discriminate|].
  destruct (m (mkState j (repeat None n)) (fun y => Some y)) eqn:E.
  - intros H; inversion H; subst. auto.
  - intros H. destruct (IH H). auto.
Qed.

Lemma firstMatch_found m n starts i :
  In i starts -> m (mkState i (repeat None n)) (fun y => Some y) <> None ->
  firstMatch m n starts <> None.
Proof.
  induction starts as [|j rest IH]; simpl; [tauto|].
  intros [->|Hin] Hm.
  - destruct (m (mkState i (repeat None n)) (fun y => Some y)); congruence.
  - destruct (m (mkState j (repeat None n)) (fun y => Some y));
      [discriminate | auto].
Qed.

Lemma substring_length s i e :
  i <= e -> e <= length s -> length (substring s i e) = e - i.
Proof.
  intros Hi He. unfold substring. rewrite length_firstn, length_skipn. lia.
Qed.

(** A successful [exec] matches at or after the cursor, inside the
    input; element 0 is the matched text; a global RegExp has its cursor
    moved to the end of the match. *)
Lemma exec_some R S ma R' :
  exec R S = (Some ma, R') ->
  exists e,
    (if global R then lastIndex R else 0) <= index ma
    /\ index ma <= e /\ e <= length S
    /\ at_ ma 0 = Some (substring S (index ma) e)
    /\ R' = (if global R then setLastIndex e R else R)
    /\ (consumes (source R) = true -> index ma < e).
Proof.
  unfold exec.
  destruct (firstMatch _ _ _) as [[i r]|] eqn:E; [|discriminate].
  intros H; inversion H; subst; clear H. simpl.
  apply firstMatch_some in E. destruct E as [Hin Hm].
  apply in_seq in Hin.
  assert (Hi : inBounds S (mkState i (repeat None (nCaptures R))))
    by (unfold inBounds; simpl; lia).
  destruct (compile_progressive S (source R) _ _ _ Hi Hm) as (y & Hy & Hb & Hk).
  inversion Hk; subst y; clear Hk. simpl in Hy. unfold inBounds in Hb.
  exists (endIndex r). repeat split; auto; try lia.
  intros Hc.
  destruct (compile_strict S (source R) Hc _ _ _ Hi Hm) as (y & Hy' & _ & Hk).
  inversion Hk; subst y. simpl in Hy'. exact Hy'.
Qed.

Lemma exec_none R S R' :
  exec R S = (None, R') -> R' = (if global R then setLastIndex 0 R else R).
Proof.
  unfold exec. destruct (firstMatch _ _ _) as [[i r]|]; [discriminate|].
  intros H; inversion H; reflexivity.
Qed.

(** ** The scan of one line *)

Lemma emittedBy_weaken nm rawLine lineIndex lang from from' d :
  from' <= from ->
  emittedBy nm rawLine lineIndex lang from d ->
  emittedBy nm rawLine lineIndex lang from' d.
Proof.
  unfold emittedBy. intros Hle H. decompose [and] H. repeat split; auto; lia.
Qed.

Lemma wellFormed_advance p e :
  wellFormed p -> wellFormed (mkPattern (name p) (setLastIndex e (regex p))).
Proof. intros [Hg Hc]. split; assumption. Qed.

(** The loop over one pattern appends to [strings]; what it appends lies
    in the line, right of the cursor, passed both filters, and is in
    left-to-right order without overlap. *)
Lemma scanPattern_spec fuel :
  forall p rawLine lineIndex lang strings,
    wellFormed p ->
    exists new p',
      scanPattern fuel p rawLine lineIndex lang strings = (strings ++ new, p')
      /\ Forall (emittedBy (name p) rawLine lineIndex lang (lastIndex (regex p))) new
      /\ StronglySorted (fun a b => endChar a <= startChar b) new.
Proof.
  induction fuel as [|fuel IH]; intros p rawLine lineIndex lang strings Hwf.
  - exists [], p. rewrite app_nil_r. repeat split; constructor.
  - cbn [scanPattern].
    destruct (exec (regex p) rawLine) as [[ma|] R'] eqn:E.
    + destruct (exec_some _ _ _ _ E) as (e & Hfrom & Hie & Hlen & H0 & HR & Hne).
      destruct Hwf as [Hg Hc]. rewrite Hg in *. specialize (Hne Hc).
      subst R'.
      set (p' := mkPattern (name p) (setLastIndex e (regex p))).
      assert (Hwf' : wellFormed p') by (apply wellFormed_advance; split; auto).
      assert (Hskip : exists new p'',
                scanPattern fuel p' rawLine lineIndex lang strings
                = (strings ++ new, p'')
                /\ Forall (emittedBy (name p) rawLine lineIndex lang
                             (lastIndex (regex p))) new
                /\ StronglySorted (fun a b => endChar a <= startChar b) new).
      { destruct (IH p' rawLine lineIndex lang strings Hwf')
          as (new & p'' & Hs & Hall & Hsort).
        exists new, p''. repeat split; auto.
        eapply Forall_impl; [|exact Hall]. intros d.
        apply emittedBy_weaken. simpl. lia. }
      destruct (orElse (orElse (at_ ma 1) (at_ ma 2)) (at_ ma 3))
        as [[|c0 cs]|]; try exact Hskip.
      destruct (length (trim (c0 :: cs)) <? 2) eqn:Etrim; [exact Hskip|].
      destruct (looksLikeCode (c0 :: cs)) eqn:Ecode; [exact Hskip|].
      cbn [global setLastIndex]. rewrite Hg. cbn [negb].
      rewrite H0, (substring_length _ _ _ Hie Hlen).
      match goal with
      | |- context [strings ++ [?d0]] => set (d := d0)
      end.
      destruct (IH p' rawLine lineIndex lang (strings ++ [d]) Hwf')
        as (new & p'' & Hs & Hall & Hsort).
      exists (d :: new), p''. split; [|split].
      * rewrite Hs, <- app_assoc. reflexivity.
      * constructor.
        -- unfold emittedBy, d; simpl. apply Nat.ltb_ge in Etrim.
           repeat split; auto; lia.
        -- eapply Forall_impl; [|exact Hall]. intros d'.
           apply emittedBy_weaken. simpl. lia.
      * constructor; [exact Hsort|].
        eapply Forall_impl; [|exact Hall]. intros d' Hd'.
        unfold emittedBy in Hd'. simpl in Hd'. unfold d; simpl. lia.
    + exists [], (mkPattern (name p) R'). rewrite app_nil_r.
      repeat split; constructor.
Qed.

(** Enough fuel for the loop: a turn that matches moves the cursor to
    the right, so the turns are at most the code units left plus one. *)
Lemma scanPattern_fuel f1 :
  forall f2 p rawLine lineIndex lang strings,
    wellFormed p ->
    length rawLine - lastIndex (regex p) < f1 ->
    length rawLine - lastIndex (regex p) < f2 ->
    scanPattern f1 p rawLine lineIndex lang strings
    = scanPattern f2 p rawLine lineIndex lang strings.
Proof.
  induction f1 as [|f1 IH]; intros f2 p rawLine lineIndex lang strings Hwf H1 H2;
    [lia|].
  destruct f2 as [|f2]; [lia|]. cbn [scanPattern].
  destruct (exec (regex p) rawLine) as [[ma|] R'] eqn:E; [|reflexivity].
  destruct (exec_some _ _ _ _ E) as (e & Hfrom & Hie & Hlen & H0 & HR & Hne).
  destruct Hwf as [Hg Hc]. rewrite Hg in *. specialize (Hne Hc). subst R'.
  assert (Hrec : forall strings',
    scanPattern f1 (mkPattern (name p) (setLastIndex e (regex p)))
      rawLine lineIndex lang strings'
    = scanPattern f2 (mkPattern (name p) (setLastIndex e (regex p)))
        rawLine lineIndex lang strings').
  { intros strings'. apply IH.
    - apply wellFormed_advance; split; auto.
    - simpl. lia.
    - simpl. lia. }
  destruct (orElse (orElse (at_ ma 1) (at_ ma 2)) (at_ ma 3))
    as [[|c0 cs]|]; auto.
  destruct (length (trim (c0 :: cs)) <? 2); auto.
  destruct (looksLikeCode (c0 :: cs)); auto.
  destruct (negb _); auto.
Qed.

(** The fuel [scanPatterns] gives a freshly created pattern is enough. *)
Lemma scanPattern_enough n p rawLine lineIndex lang strings :
  wellFormed p -> S (length rawLine) <= n ->
  scanPattern n p rawLine lineIndex lang strings
  = scanPattern (S (length rawLine)) p rawLine lineIndex lang strings.
Proof.
  intros Hwf Hn. apply scanPattern_fuel; auto; lia.
Qed.

Lemma scanPattern_app fuel :
  forall p rawLine lineIndex lang strings,
    fst (scanPattern fuel p rawLine lineIndex lang strings)
    = strings ++ fst (scanPattern fuel p rawLine lineIndex lang []).
Proof.
  induction fuel as [|fuel IH]; intros p rawLine lineIndex lang strings;
    cbn [scanPattern].
  - simpl. rewrite app_nil_r. reflexivity.
  - destruct (exec (regex p) rawLine) as [[ma|] R'];
      [|simpl; rewrite app_nil_r; reflexivity].
    destruct (orElse (orElse (at_ ma 1) (at_ ma 2)) (at_ ma 3))
      as [[|c0 cs]|]; auto.
    destruct (length (trim (c0 :: cs)) <? 2); auto.
    destruct (looksLikeCode (c0 :: cs)); auto.
    destruct (negb (global R')); [reflexivity|].
    rewrite IH. rewrite (IH _ _ _ _ ([] ++ _)).
    rewrite <- app_assoc. reflexivity.
Qed.

Lemma scanPatterns_flat ps :
  forall rawLine lineIndex lang strings,
    fst (scanPatterns ps rawLine lineIndex lang strings)
    = strings ++ flat_map (matchesOf rawLine lineIndex lang) ps.
Proof.
  induction ps as [|p rest IH]; intros rawLine lineIndex lang strings;
    cbn [scanPatterns flat_map].
  - simpl. rewrite app_nil_r. reflexivity.
  - destruct (scanPattern (S (length rawLine)) p rawLine lineIndex lang strings)
      as [strings' p'] eqn:E.
    specialize (IH rawLine lineIndex lang strings').
    destruct (scanPatterns rest rawLine lineIndex lang strings')
      as [strings'' rest'].
    simpl in IH. simpl. rewrite IH.
    assert (Hs : strings' = strings ++ matchesOf rawLine lineIndex lang p).
    { unfold matchesOf. rewrite <- scanPattern_app, E. reflexivity. }
    rewrite Hs, <- app_assoc. reflexivity.
Qed.

Lemma extractStringsFromLine_flat rawLine lineIndex lang :
  extractStringsFromLine rawLine lineIndex lang
  = flat_map (matchesOf rawLine lineIndex lang) (getStringPatterns lang).
Proof. unfold extractStringsFromLine. apply scanPatterns_flat. Qed.

Lemma matchesOf_spec rawLine lineIndex lang p :
  wellFormed p ->
  Forall (emittedBy (name p) rawLine lineIndex lang 0)
    (matchesOf rawLine lineIndex lang p)
  /\ StronglySorted (fun a b => endChar a <= startChar b)
       (matchesOf rawLine lineIndex lang p).
Proof.
  intros Hwf. unfold matchesOf.
  destruct (scanPattern_spec (S (length rawLine)) p rawLine lineIndex lang [] Hwf)
    as (new & p' & Hs & Hall & Hsort).
  rewrite Hs. simpl. split; [|exact Hsort].
  eapply Forall_impl; [|exact Hall]. intros d.
  apply emittedBy_weaken. lia.
Qed.

(** The pattern set of every language: global patterns that never match
    the empty string, under distinct names. *)
Lemma getStringPatterns_wellFormed lang :
  Forall wellFormed (getStringPatterns lang).
Proof.
  unfold getStringPatterns.
  repeat match goal with |- context [if ?b then _ else _] => destruct b end;
    repeat constructor.
Qed.

Lemma getStringPatterns_names lang :
  NoDup (map name (getStringPatterns lang)).
Proof.
  unfold getStringPatterns.
  repeat match goal with |- context [if ?b then _ else _] => destruct b end;
    vm_compute; repeat constructor; simpl; intuition discriminate.
Qed.

(** ** The scan of a document *)

Lemma scanLines_collect {Exn} lines :
  forall lineIndex lang (this : StringDetector Exn),
    scanLines (fun l i g => inr (extractStringsFromLine l i g))
      lines lineIndex lang this
    = (None, mkDetector (detectedStrings this ++ collect lines lineIndex lang)
               (logger this)).
Proof.
  induction lines as [|l rest IH]; intros lineIndex lang this; simpl.
  - rewrite app_nil_r. destruct this; reflexivity.
  - rewrite IH. simpl. rewrite <- app_assoc. reflexivity.
Qed.

(** The value [detectStrings] resolves to does not depend on the state
    of the detector or on the file name. *)
Lemma detectStrings_collect {Exn} document (this : StringDetector Exn) :
  fst (detectStrings document this)
  = collect (split Ch.LF (vscode.getText document)) 0
      (vscode.languageId document).
Proof.
  unfold detectStrings, detectStringsWith. rewrite scanLines_collect.
  reflexivity.
Qed.

Lemma detect_collect D L : detect D L = collect (split Ch.LF D) 0 L.
Proof. unfold detect. rewrite detectStrings_collect. reflexivity. Qed.

Lemma in_collect lines :
  forall lineIndex lang d,
    In d (collect lines lineIndex lang) ->
    exists k rawLine,
      nth_error lines k = Some rawLine
      /\ In d (extractStringsFromLine rawLine (lineIndex + k) lang).
Proof.
  induction lines as [|l rest IH]; intros lineIndex lang d; simpl; [tauto|].
  rewrite in_app_iff. intros [H|H].
  - exists 0, l. rewrite Nat.add_0_r. auto.
  - destruct (IH _ _ _ H) as (k & rawLine & Hk & Hin).
    exists (S k), rawLine. rewrite Nat.add_succ_r. auto.
Qed.

Lemma in_extract rawLine lineIndex lang d :
  In d (extractStringsFromLine rawLine lineIndex lang) ->
  exists p, In p (getStringPatterns lang)
            /\ In d (matchesOf rawLine lineIndex lang p)
            /\ emittedBy (name p) rawLine lineIndex lang 0 d.
Proof.
  rewrite extractStringsFromLine_flat, in_flat_map.
  intros (p & Hp & Hd). exists p. split; [exact Hp|split; [exact Hd|]].
  pose proof (getStringPatterns_wellFormed lang) as Hwf.
  rewrite Forall_forall in Hwf.
  destruct (matchesOf_spec rawLine lineIndex lang p (Hwf p Hp)) as [Hall _].
  rewrite Forall_forall in Hall. auto.
Qed.

(** Every detection of a document comes from the scan of the line it
    names, by one of the patterns of the language. *)
Lemma in_detect D L d :
  In d (detect D L) ->
  exists rawLine p,
    nth_error (split Ch.LF D) (line d) = Some rawLine
    /\ In p (getStringPatterns L)
    /\ emittedBy (name p) rawLine (line d) L 0 d.
Proof.
  rewrite detect_collect. intros H.
  destruct (in_collect _ _ _ _ H) as (k & rawLine & Hk & Hin).
  destruct (in_extract _ _ _ _ Hin) as (p & Hp & _ & Hem).
  assert (Hl : line d = k) by (destruct Hem as [Hl _]; exact Hl).
  exists rawLine, p. rewrite Hl. split; [exact Hk|split; [exact Hp|]].
  exact Hem.
Qed.

(** ** The pattern sets *)

Lemma getStringPatterns_cases lang :
  getStringPatterns lang
    = basePatterns ++ [mkPattern (js "template") (literalG templateRegex)]
  \/ getStringPatterns lang
    = basePatterns ++ [mkPattern (js "triple-double") (literalG tripleDoubleRegex);
                       mkPattern (js "triple-single") (literalG tripleSingleRegex)]
  \/ getStringPatterns lang
    = basePatterns ++ [mkPattern (js "verbatim") (literalG verbatimRegex)]
  \/ getStringPatterns lang = basePatterns.
Proof.
  unfold getStringPatterns.
  repeat match goal with |- context [if ?b then _ else _] => destruct b end;
    auto.
Qed.

Lemma getStringPatterns_ecmaScript lang :
  isOneOf lang ecmaScriptTags = true ->
  getStringPatterns lang
  = basePatterns ++ [mkPattern (js "template") (literalG templateRegex)].
Proof.
  intros H. unfold getStringPatterns. unfold ecmaScriptTags in H.
  rewrite H. reflexivity.
Qed.

Lemma getStringPatterns_unrecognized lang :
  recognized lang = false -> getStringPatterns lang = basePatterns.
Proof.
  unfold recognized, ecmaScriptTags, isOneOf. cbn [app existsb]. intros H.
  repeat (apply orb_false_iff in H; destruct H as [? H]).
  unfold getStringPatterns, isOneOf. cbn [existsb].
  repeat match goal with E : jsstring_eqb _ _ = false |- _ => rewrite E; clear E end.
  reflexivity.
Qed.

Lemma getStringPatterns_php : getStringPatterns (js "php") = basePatterns.
Proof. reflexivity. Qed.

(** One-line documents. *)
Lemma detect_line D L :
  split Ch.LF D = [D] -> detect D L = extractStringsFromLine D 0 L.
Proof.
  intros H. rewrite detect_collect, H. simpl. apply app_nil_r.
Qed.

(** ** The matcher on small inputs *)

(** A backslash keeps the quote after it inside the literal. *)
Example exec_escaped_quote :
  fst (exec (literalG doubleRegex)
         (js "x = " ++ dq (js "a\" ++ [Ch.DQ] ++ js "b c")))
  = Some (mkMatch 4 [Some (dq (js "a\" ++ [Ch.DQ] ++ js "b c"));
                     Some (js "a\" ++ [Ch.DQ] ++ js "b c");
                     Some ([Ch.BSLASH; Ch.DQ] ++ js "b c")]).
Proof. vm_compute. reflexivity. Qed.

(** The lazy body of a triple-quoted pattern stops at the first closing
    delimiter, and a global pattern resumes after it. *)
Example exec_triple_lazy :
  let R := literalG tripleSingleRegex in
  let S := js "'''ab''' '''cd'''" in
  fst (exec R S) = Some (mkMatch 0 [Some (js "'''ab'''"); Some (js "ab")])
  /\ fst (exec (snd (exec R S)) S)
     = Some (mkMatch 9 [Some (js "'''cd'''"); Some (js "cd")])
  /\ exec (snd (exec (snd (exec R S)) S)) S = (None, R).
Proof. vm_compute. auto. Qed.

Example looksLikeCode_samples :
  map looksLikeCode
    [ js "userName_1"; js "2024"; js "index.html"; js "#main-nav";
      js "a; b"; js "   "; js "key: value"; js "run(now)"; js "a && b";
      js "hello world"; js " word"; js "Save file?" ]
  = [ true; true; true; true; true; true; true; true; true;
      false; false; false ].
Proof. vm_compute. reflexivity. Qed.

(** ** Scenarios *)

(** C1, as stated, fails: the line yields no detection at all, so in
    particular not the single [double] detection with text
    [Hello, world!]. *)
Lemma greeting_not_detected :
  ~ exists d,
      detect greetingLine (js "typescript") = [d]
      /\ text d = js "Hello, world!" /\ quoteType d = js "double"
      /\ startChar d = 17 /\ endChar d = 32.
Proof.
  intros (d & H & _). vm_compute in H. discriminate.
Qed.

(** C1 (amended): on the line [const greeting = "Hello, world!";] with
    languageId [typescript], [detect] returns no detection.  The double
    pattern does match the quoted literal at columns 17 to 32, but its
    body contains a comma, which [looksLikeCode] counts as code
    punctuation; nothing is reported for [const] or [greeting]. *)
Theorem greeting_rejected :
  detect greetingLine (js "typescript") = []
  /\ fst (exec (literalG doubleRegex) greetingLine)
     = Some (mkMatch 17 [Some (dq (js "Hello, world!"));
                         Some (js "Hello, world!"); None])
  /\ looksLikeCode (js "Hello, world!") = true
  /\ test (RSet false (map CChar codePunctuation)) (js "Hello, world!") = true.
Proof. vm_compute. auto. Qed.

(** C4, as stated, fails: the line yields two detections, not one. *)
Lemma verbatim_not_alone :
  ~ exists d, detect verbatimLine (js "csharp") = [d].
Proof.
  intros (d & H). vm_compute in H. discriminate.
Qed.

(** C4 (amended): on the verbatim C# literal whose body is
    [a QQquotedQQ word] (Q the double quote; see [verbatimLine]) with
    languageId [csharp], [detect] returns exactly one [verbatim]
    detection; it spans the whole literal and its text keeps the doubled
    quotes as they are.  Before it comes a [double] detection with text
    [ word]: the base pattern matches the tail of the literal, and
    overlapping matches of different patterns are all reported. *)
Theorem verbatim_detected :
  detect verbatimLine (js "csharp")
  = [ mkDetected (js " word") 0 13 20 (js "double") (js "csharp");
      mkDetected verbatimBody 0 0 20 (js "verbatim") (js "csharp") ]
  /\ exists pre post, verbatimBody = pre ++ [Ch.DQ; Ch.DQ] ++ post.
Proof.
  split; [vm_compute; reflexivity|].
  exists (js "a "), (js "quoted" ++ [Ch.DQ; Ch.DQ] ++ js " word"). reflexivity.
Qed.

(** C5: the line [`hi there`] yields one [template] detection under each
    ECMAScript-family tag and no detection under a tag that
    [getStringPatterns] does not recognise. *)
Theorem template_gating L :
  (isOneOf L ecmaScriptTags = true ->
   detect templateLine L = [mkDetected (js "hi there") 0 0 10 (js "template") L])
  /\ (recognized L = false -> detect templateLine L = []).
Proof.
  split; intros H; rewrite detect_line by reflexivity;
    unfold extractStringsFromLine.
  - rewrite (getStringPatterns_ecmaScript L H). vm_compute. reflexivity.
  - rewrite (getStringPatterns_unrecognized L H). vm_compute. reflexivity.
Qed.

Lemma template_gating_witness :
  (detect templateLine (js "javascript")
   = [mkDetected (js "hi there") 0 0 10 (js "template") (js "javascript")]
   /\ detect templateLine (js "typescript")
      = [mkDetected (js "hi there") 0 0 10 (js "template") (js "typescript")]
   /\ detect templateLine (js "javascriptreact")
      = [mkDetected (js "hi there") 0 0 10 (js "template") (js "javascriptreact")]
   /\ detect templateLine (js "typescriptreact")
      = [mkDetected (js "hi there") 0 0 10 (js "template") (js "typescriptreact")])
  /\ detect templateLine (js "plaintext") = [].
Proof.
  split; [split; [|split; [|split]]|];
    [ apply (proj1 (template_gating (js "javascript")))
    | apply (proj1 (template_gating (js "typescript")))
    | apply (proj1 (template_gating (js "javascriptreact")))
    | apply (proj1 (template_gating (js "typescriptreact")))
    | apply (proj2 (template_gating (js "plaintext"))) ];
    reflexivity.
Defined.

(** C6: whatever the language, a line that is only ["42"] yields no
    detection, a line that is only ["x"] yields no detection, and a line
    that is only ["hello world"] yields exactly one detection, of quote
    type [double] and text [hello world]. *)
Theorem rejection_laws L :
  detect (dq (js "42")) L = []
  /\ detect (dq (js "x")) L = []
  /\ detect (dq (js "hello world")) L
     = [mkDetected (js "hello world") 0 0 13 (js "double") L].
Proof.
  split; [|split]; rewrite detect_line by reflexivity;
    unfold extractStringsFromLine;
    destruct (getStringPatterns_cases L) as [H|[H|[H|H]]]; rewrite H;
    vm_compute; reflexivity.
Qed.

(** ** Invariants of the detections *)

(** Lines are cut at line feeds only: a carriage return stays in its
    line. *)
Example split_keeps_carriage_return :
  split Ch.LF [97; 13; 10; 98]%N = [[97; 13]; [98]]%N.
Proof. reflexivity. Qed.

(** C3: every detection lies on a line of the document (the text between
    line feeds, carriage returns kept) and there
    [0 <= startChar < endChar <= length of the line]; its text, trimmed,
    has at least two code units. *)
Theorem detection_bounds D L d :
  In d (detect D L) ->
  exists rawLine,
    nth_error (split Ch.LF D) (line d) = Some rawLine
    /\ 0 <= startChar d /\ startChar d < endChar d
    /\ endChar d <= length rawLine
    /\ 2 <= length (trim (text d)).
Proof.
  intros H. destruct (in_detect D L d H) as (rawLine & p & Hl & _ & Hem).
  exists rawLine. unfold emittedBy in Hem. decompose [and] Hem.
  repeat split; auto.
Qed.

Lemma detection_bounds_witness :
  exists rawLine,
    nth_error (split Ch.LF (js "x = 1;" ++ [13; 10]%N ++ mixedLine ++ [13]%N)) 1
      = Some rawLine
    /\ 0 <= 8 /\ 8 < 15 /\ 15 <= length rawLine
    /\ 2 <= length (trim (js "ef gh")).
Proof.
  apply (detection_bounds (js "x = 1;" ++ [13; 10]%N ++ mixedLine ++ [13]%N)
           (js "python")
           (mkDetected (js "ef gh") 1 8 15 (js "double") (js "python"))).
  vm_compute. left. reflexivity.
Defined.

Lemma looksLikeCode_false t r :
  looksLikeCode t = false -> In r codePatterns -> test r t = false.
Proof.
  unfold looksLikeCode. intros H Hr.
  destruct (test r t) eqn:E; [|reflexivity].
  assert (existsb (fun pattern => test pattern t) codePatterns = true)
    by (apply existsb_exists; exists r; auto).
  congruence.
Qed.

(** A character class given as a pattern of its own is found wherever it
    occurs in the text. *)
Lemma test_class items t c :
  In c t -> existsb (classItemHas c) items = true ->
  test (RSet false items) t = true.
Proof.
  intros Hin Hc. apply In_nth_error in Hin. destruct Hin as [i Hi].
  assert (Hlt : i < length t) by (apply nth_error_Some; congruence).
  unfold test, exec. cbn [global source nCaptures parens length].
  destruct (firstMatch _ _ _) as [[j r]|] eqn:E; [reflexivity|].
  exfalso. revert E.
  apply firstMatch_found with (i := i).
  - apply in_seq. lia.
  - cbn [compile]. unfold CharacterSetMatcher. cbn [endIndex].
    rewrite Hi, Hc. simpl. discriminate.
Qed.

(** C9: the text of a detection holds none of the characters
    [{ } [ ] ( ) ; ,]: a literal whose body has one is never reported,
    whatever the language and the quote type. *)
Theorem no_code_punctuation D L d c :
  In d (detect D L) -> In c (text d) -> ~ In c codePunctuation.
Proof.
  intros Hd Hc Hp.
  destruct (in_detect D L d Hd) as (rawLine & p & _ & _ & Hem).
  unfold emittedBy in Hem. decompose [and] Hem.
  assert (Ht : test (RSet false (map CChar codePunctuation)) (text d) = false).
  { apply looksLikeCode_false; [assumption|].
    unfold codePatterns. simpl. tauto. }
  rewrite (test_class (map CChar codePunctuation) (text d) c Hc) in Ht;
    [discriminate|].
  apply existsb_exists. exists (CChar c). split.
  - apply in_map. exact Hp.
  - simpl. apply N.eqb_refl.
Qed.

Lemma no_code_punctuation_witness :
  ~ In 32%N codePunctuation.
Proof.
  apply (no_code_punctuation mixedLine (js "go")
           (mkDetected (js "ef gh") 0 8 15 (js "double") (js "go")) 32%N).
  - vm_compute. left. reflexivity.
  - vm_compute. right. right. left. reflexivity.
Defined.

(** ** The language tag *)

Lemma scanPattern_lang fuel L1 L2 :
  forall p rawLine lineIndex strings,
    scanPattern fuel p rawLine lineIndex L2 (map (withLanguageId L2) strings)
    = (map (withLanguageId L2) (fst (scanPattern fuel p rawLine lineIndex L1 strings)),
       snd (scanPattern fuel p rawLine lineIndex L1 strings)).
Proof.
  induction fuel as [|fuel IH]; intros p rawLine lineIndex strings;
    cbn [scanPattern]; [reflexivity|].
  destruct (exec (regex p) rawLine) as [[ma|] R']; [|reflexivity].
  destruct (orElse (orElse (at_ ma 1) (at_ ma 2)) (at_ ma 3))
    as [[|c0 cs]|]; auto.
  destruct (length (trim (c0 :: cs)) <? 2); auto.
  destruct (looksLikeCode (c0 :: cs)); auto.
  destruct (negb (global R')).
  - simpl. rewrite map_app. reflexivity.
  - rewrite <- IH, map_app. reflexivity.
Qed.

Lemma matchesOf_lang L1 L2 rawLine lineIndex p :
  matchesOf rawLine lineIndex L2 p
  = map (withLanguageId L2) (matchesOf rawLine lineIndex L1 p).
Proof.
  unfold matchesOf.
  change (@nil DetectedString) with (map (withLanguageId L2) []) at 1.
  rewrite (scanPattern_lang _ L1 L2). reflexivity.
Qed.

Lemma map_flat_map {A B C} (f : B -> C) (g : A -> list B) l :
  map f (flat_map g l) = flat_map (fun x => map f (g x)) l.
Proof.
  induction l as [|a l IH]; simpl; [reflexivity|].
  rewrite map_app, IH. reflexivity.
Qed.

Lemma collect_lang L1 L2 lines :
  getStringPatterns L2 = getStringPatterns L1 ->
  forall lineIndex,
    collect lines lineIndex L2
    = map (withLanguageId L2) (collect lines lineIndex L1).
Proof.
  intros HP. induction lines as [|l rest IH]; intros lineIndex; simpl;
    [reflexivity|].
  rewrite map_app, IH. f_equal.
  rewrite !extractStringsFromLine_flat, HP, map_flat_map.
  apply flat_map_ext. intros p. apply matchesOf_lang.
Qed.

Lemma detect_languageId D L :
  Forall (fun d => languageId d = L) (detect D L).
Proof.
  apply Forall_forall. intros d Hd.
  destruct (in_detect D L d Hd) as (rawLine & p & _ & _ & Hem).
  unfold emittedBy in Hem. tauto.
Qed.

(** C10: for a languageId [L] without a case in [getStringPatterns],
    [detect D "php"] is [detect D L] with the languageId of every record
    set to [php]; the records of either result carry the tag they were
    asked with; the php case adds no pattern to the two base ones. *)
Theorem php_as_unrecognized D L :
  recognized L = false ->
  detect D (js "php") = map (withLanguageId (js "php")) (detect D L)
  /\ Forall (fun d => languageId d = L) (detect D L)
  /\ Forall (fun d => languageId d = js "php") (detect D (js "php"))
  /\ getStringPatterns (js "php") = basePatterns
  /\ getStringPatterns L = basePatterns.
Proof.
  intros HL. pose proof (getStringPatterns_unrecognized L HL) as HP.
  repeat split; auto using detect_languageId.
  rewrite !detect_collect. apply collect_lang. rewrite HP. reflexivity.
Qed.

Lemma php_as_unrecognized_witness :
  detect (mixedLine ++ [10]%N ++ templateLine) (js "php")
  = map (withLanguageId (js "php"))
      (detect (mixedLine ++ [10]%N ++ templateLine) (js "rust"))
  /\ Forall (fun d => languageId d = js "rust")
       (detect (mixedLine ++ [10]%N ++ templateLine) (js "rust"))
  /\ Forall (fun d => languageId d = js "php")
       (detect (mixedLine ++ [10]%N ++ templateLine) (js "php"))
  /\ getStringPatterns (js "php") = basePatterns
  /\ getStringPatterns (js "rust") = basePatterns.
Proof.
  apply (php_as_unrecognized (mixedLine ++ [10]%N ++ templateLine) (js "rust")).
  reflexivity.
Defined.

(** ** The detector's state *)

Lemma scanPatterns_reset ps :
  forall rawLine lineIndex lang strings,
    Forall (fun p => lastIndex (regex p) = 0)
      (snd (scanPatterns ps rawLine lineIndex lang strings)).
Proof.
  induction ps as [|p rest IH]; intros rawLine lineIndex lang strings;
    cbn [scanPatterns]; [constructor|].
  destruct (scanPattern _ p rawLine lineIndex lang strings) as [strings' p'].
  specialize (IH rawLine lineIndex lang strings').
  destruct (scanPatterns rest rawLine lineIndex lang strings') as [strings'' rest'].
  simpl in *. constructor; [reflexivity | exact IH].
Qed.

Lemma getStringPatterns_fresh lang :
  Forall (fun p => lastIndex (regex p) = 0) (getStringPatterns lang).
Proof.
  destruct (getStringPatterns_cases lang) as [H|[H|[H|H]]]; rewrite H;
    repeat constructor.
Qed.

(** C8: a second [detectStrings] on the same document, run on the
    detector as the first call left it, resolves to the same sequence;
    the detector then holds exactly that sequence (replaced, not
    appended to).  The patterns of a line scan start with their cursor at
    0 and are left with it at 0. *)
Theorem detection_idempotent {Exn} document (this : StringDetector Exn) :
  let first := detectStrings document this in
  let second := detectStrings document (snd first) in
  fst second = fst first
  /\ detectedStrings (snd second) = fst first
  /\ fst first = detect (vscode.getText document) (vscode.languageId document)
  /\ forall rawLine lineIndex lang strings,
       Forall (fun p => lastIndex (regex p) = 0) (getStringPatterns lang)
       /\ Forall (fun p => lastIndex (regex p) = 0)
            (snd (scanPatterns (getStringPatterns lang)
                    rawLine lineIndex lang strings)).
Proof.
  cbv zeta. split; [|split; [|split]].
  - rewrite !detectStrings_collect. reflexivity.
  - rewrite (detectStrings_collect document this).
    unfold detectStrings, detectStringsWith. rewrite !scanLines_collect.
    reflexivity.
  - rewrite detectStrings_collect, detect_collect. reflexivity.
  - intros. split; [apply getStringPatterns_fresh | apply scanPatterns_reset].
Qed.

(** The detector's own scan never takes the [catch] branch: it logs the
    start and the number of detections. *)
Lemma detectStrings_logs {Exn} document (this : StringDetector Exn) :
  logger (snd (detectStrings document this))
  = logger this
    ++ [Log (MsgDetecting (vscode.fileName document));
        Log (MsgDetected (length (fst (detectStrings document this))))].
Proof.
  unfold detectStrings, detectStringsWith. rewrite scanLines_collect.
  simpl. rewrite <- app_assoc. reflexivity.
Qed.

(** ** Exceptions in the scanning loop *)

Lemma scanLines_throws {Exn} (extract : jsstring -> nat -> jsstring -> Exn + list DetectedString)
    lang lines :
  forall lineIndex this,
    (exists k rawLine error,
       nth_error lines k = Some rawLine
       /\ extract rawLine (lineIndex + k) lang = inl error) ->
    exists error this',
      scanLines extract lines lineIndex lang this = (Some error, this')
      /\ logger this' = logger this.
Proof.
  induction lines as [|l rest IH]; intros lineIndex this (k & rawLine & e & Hk & He).
  - destruct k; discriminate.
  - cbn [scanLines]. destruct (extract l lineIndex lang) as [e'|found] eqn:E.
    + exists e', this. auto.
    + destruct k as [|k].
      * simpl in Hk. inversion Hk; subst. rewrite Nat.add_0_r in He. congruence.
      * destruct (IH (S lineIndex)
                    (mkDetector (detectedStrings this ++ found) (logger this)))
          as (e' & this' & Hs & Hlog).
        { exists k, rawLine, e. split; [exact Hk|].
          rewrite Nat.add_succ_comm. exact He. }
        exists e', this'. auto.
Qed.

(** C7: when the step of the scanning loop throws on some line,
    [detectStrings] catches the exception: it resolves to the empty
    list, and the logger receives one error entry after the entry of the
    start of the scan.  The result is a value in every case: nothing is
    thrown to the caller. *)
Theorem scan_exception_caught {Exn}
    (extract : jsstring -> nat -> jsstring -> Exn + list DetectedString)
    document (this : StringDetector Exn) k rawLine error :
  nth_error (split Ch.LF (vscode.getText document)) k = Some rawLine ->
  extract rawLine k (vscode.languageId document) = inl error ->
  exists caught,
    fst (detectStringsWith extract document this) = []
    /\ logger (snd (detectStringsWith extract document this))
       = logger this ++ [Log (MsgDetecting (vscode.fileName document));
                         LogError MsgErrorDetecting caught].
Proof.
  intros Hk He. unfold detectStringsWith.
  destruct (scanLines_throws extract (vscode.languageId document)
              (split Ch.LF (vscode.getText document)) 0
              (logLine (Log (MsgDetecting (vscode.fileName document)))
                 (mkDetector [] (logger this))))
    as (caught & this' & Hs & Hlog).
  { exists k, rawLine, error. auto. }
  rewrite Hs. exists caught. simpl. rewrite Hlog. simpl.
  rewrite <- app_assoc. auto.
Qed.

Lemma scan_exception_caught_witness :
  exists caught,
    fst (detectStringsWith
           (fun l i g => if i =? 1 then inl 7 else inr (extractStringsFromLine l i g))
           (vscode.mkDocument (js "a.ts") (mixedLine ++ [10]%N ++ templateLine)
              (js "typescript"))
           (mkDetector [] [])) = []
    /\ logger (snd (detectStringsWith
           (fun l i g => if i =? 1 then inl 7 else inr (extractStringsFromLine l i g))
           (vscode.mkDocument (js "a.ts") (mixedLine ++ [10]%N ++ templateLine)
              (js "typescript"))
           (mkDetector [] [])))
       = [] ++ [Log (MsgDetecting (js "a.ts")); LogError MsgErrorDetecting caught].
Proof.
  apply (scan_exception_caught
           (fun l i g => if i =? 1 then inl 7 else inr (extractStringsFromLine l i g))
           (vscode.mkDocument (js "a.ts") (mixedLine ++ [10]%N ++ templateLine)
              (js "typescript"))
           (mkDetector [] []) 1 templateLine 7); reflexivity.
Defined.

(** ** The order of the detections *)

Lemma StronglySorted_app {A} (R : A -> A -> Prop) l1 l2 :
  StronglySorted R l1 -> StronglySorted R l2 ->
  (forall a b, In a l1 -> In b l2 -> R a b) ->
  StronglySorted R (l1 ++ l2).
Proof.
  induction l1 as [|x l1 IH]; simpl; intros H1 H2 Hc; [exact H2|].
  inversion H1 as [|? ? Hs Hall]; subst.
  constructor.
  - apply IH; auto.
  - apply Forall_app. split; [exact Hall|].
    apply Forall_forall. intros b Hb. apply Hc; auto.
Qed.

Lemma StronglySorted_refine {A} (R1 R2 : A -> A -> Prop) (P : A -> Prop) l :
  (forall a b, P a -> P b -> R1 a b -> R2 a b) ->
  Forall P l -> StronglySorted R1 l -> StronglySorted R2 l.
Proof.
  intros HR HP Hs. induction Hs as [|x l Hs IH Hall]; [constructor|].
  inversion HP as [|? ? Px Pl]; subst.
  constructor; [auto|].
  rewrite Forall_forall in *. intros b Hb. apply HR; auto.
Qed.

Lemma jsstring_eqb_eq a b : jsstring_eqb a b = true <-> a = b.
Proof.
  unfold jsstring_eqb. destruct (list_eq_dec N.eq_dec a b); split;
    congruence.
Qed.

Lemma indexOf_nth names :
  NoDup names ->
  forall k q, nth_error names k = Some q -> indexOf q names = k.
Proof.
  induction 1 as [|n ns Hn Hnd IH]; intros k q Hk.
  - destruct k; discriminate.
  - simpl. destruct k as [|k]; simpl in Hk.
    + inversion Hk; subst.
      destruct (jsstring_eqb q q) eqn:E; [reflexivity|].
      assert (jsstring_eqb q q = true) by (apply jsstring_eqb_eq; reflexivity).
      congruence.
    + destruct (jsstring_eqb q n) eqn:E.
      * apply jsstring_eqb_eq in E. subst n.
        exfalso. apply Hn. eapply nth_error_In; eauto.
      * f_equal. auto.
Qed.

(** A detection of the pattern at position [k] in the pattern set has
    rank [k]. *)
Lemma patternRank_nth lang k p rawLine lineIndex d :
  nth_error (getStringPatterns lang) k = Some p ->
  In d (matchesOf rawLine lineIndex lang p) ->
  patternRank lang d = k /\ line d = lineIndex.
Proof.
  intros Hk Hd.
  assert (Hwf : wellFormed p).
  { pose proof (getStringPatterns_wellFormed lang) as H.
    rewrite Forall_forall in H. apply H. eapply nth_error_In; eauto. }
  destruct (matchesOf_spec rawLine lineIndex lang p Hwf) as [Hall _].
  rewrite Forall_forall in Hall. specialize (Hall d Hd).
  unfold emittedBy in Hall. decompose [and] Hall.
  split; [|assumption].
  unfold patternRank. apply indexOf_nth.
  - apply getStringPatterns_names.
  - rewrite nth_error_map, Hk. simpl. congruence.
Qed.

Lemma matchesOf_sorted lang rawLine lineIndex p :
  In p (getStringPatterns lang) ->
  StronglySorted (scanOrder lang) (matchesOf rawLine lineIndex lang p).
Proof.
  intros Hp.
  assert (Hwf : wellFormed p).
  { pose proof (getStringPatterns_wellFormed lang) as H.
    rewrite Forall_forall in H. auto. }
  destruct (matchesOf_spec rawLine lineIndex lang p Hwf) as [Hall Hs].
  apply (StronglySorted_refine (fun a b => endChar a <= startChar b)
           (scanOrder lang) (emittedBy (name p) rawLine lineIndex lang 0));
    [|exact Hall|exact Hs].
  intros a b Ha Hb Hab. unfold emittedBy in Ha, Hb.
  destruct Ha as (Hla & Hqa & _ & _ & Hsa & _).
  destruct Hb as (Hlb & Hqb & _).
  right. split; [congruence|]. right. split; [|lia].
  unfold patternRank. congruence.
Qed.

Lemma flat_sorted lang rawLine lineIndex :
  forall suf pre,
    getStringPatterns lang = pre ++ suf ->
    StronglySorted (scanOrder lang)
      (flat_map (matchesOf rawLine lineIndex lang) suf).
Proof.
  induction suf as [|p rest IH]; intros pre Hps; cbn [flat_map];
    [constructor|].
  assert (Hp : nth_error (getStringPatterns lang) (length pre) = Some p).
  { rewrite Hps, nth_error_app2 by lia. rewrite Nat.sub_diag. reflexivity. }
  apply StronglySorted_app.
  - apply matchesOf_sorted. eapply nth_error_In; eauto.
  - apply (IH (pre ++ [p])). rewrite <- app_assoc. exact Hps.
  - intros a b Ha Hb. apply in_flat_map in Hb. destruct Hb as (p' & Hp' & Hb).
    apply In_nth_error in Hp'. destruct Hp' as [j Hj].
    assert (Hq : nth_error (getStringPatterns lang) (length pre + S j) = Some p').
    { rewrite Hps, nth_error_app2 by lia.
      replace (length pre + S j - length pre) with (S j) by lia. exact Hj. }
    destruct (patternRank_nth lang _ p rawLine lineIndex a Hp Ha) as [Hra Hla].
    destruct (patternRank_nth lang _ p' rawLine lineIndex b Hq Hb) as [Hrb Hlb].
    right. split; [congruence|]. left. lia.
Qed.

Lemma extract_sorted lang rawLine lineIndex :
  StronglySorted (scanOrder lang) (extractStringsFromLine rawLine lineIndex lang).
Proof.
  rewrite extractStringsFromLine_flat. apply (flat_sorted lang _ _ _ []).
  reflexivity.
Qed.

Lemma collect_sorted lang lines :
  forall lineIndex, StronglySorted (scanOrder lang) (collect lines lineIndex lang).
Proof.
  induction lines as [|l rest IH]; intros lineIndex; cbn [collect];
    [constructor|].
  apply StronglySorted_app; [apply extract_sorted | apply IH |].
  intros a b Ha Hb.
  destruct (in_extract _ _ _ _ Ha) as (pa & _ & _ & Hema).
  destruct (in_collect _ _ _ _ Hb) as (k & rawLine & _ & Hin).
  destruct (in_extract _ _ _ _ Hin) as (pb & _ & _ & Hemb).
  destruct Hema as [Hla _]. destruct Hemb as [Hlb _].
  left. lia.
Qed.

(** C2, as stated, fails: on a line with a single-quoted literal before
    a double-quoted one the double detection (column 8) comes before the
    single one (column 0). *)
Lemma not_sorted_by_column :
  ~ Sorted (positionOrder (js "go")) (detect mixedLine (js "go")).
Proof.
  assert (E : detect mixedLine (js "go")
              = [ mkDetected (js "ef gh") 0 8 15 (js "double") (js "go");
                  mkDetected (js "ab cd") 0 0 7 (js "single") (js "go") ])
    by (vm_compute; reflexivity).
  rewrite E. intros H.
  inversion H as [|? ? _ Hhd]; subst.
  inversion Hhd as [|? ? Hord]; subst.
  unfold positionOrder in Hord. simpl in Hord. lia.
Qed.

(** C2 (amended): for every document and languageId the detections come
    sorted by line, then, on one line, by the order in which the patterns
    are applied (double, single, then the patterns of the dialect), then,
    for one line and one pattern, by startChar, strictly ascending. *)
Theorem detections_in_scan_order D L :
  StronglySorted (scanOrder L) (detect D L).
Proof. rewrite detect_collect. apply collect_sorted. Qed.

(** ** Captured spans *)

Lemma list_set_length {A} k (v : A) l : length (list_set k v l) = length l.
Proof.
  revert k. induction l as [|a l IH]; intros k; destruct k; simpl; auto.
Qed.

Lemma list_set_Forall {A} (P : A -> Prop) k v l :
  P v -> Forall P l -> Forall P (list_set k v l).
Proof.
  intros Hv. revert k. induction l as [|a l IH]; intros k Hl;
    [destruct k; constructor|].
  inversion Hl; subst. destruct k; simpl; constructor; auto.
Qed.

Lemma clearCaptures_length ps caps :
  length (clearCaptures ps caps) = length caps.
Proof.
  unfold clearCaptures. revert caps.
  induction ps as [|p ps IH]; intros caps; simpl; [reflexivity|].
  rewrite IH. apply list_set_length.
Qed.

Lemma clearCaptures_Forall lo hi ps caps :
  Forall (spanWithin lo hi) caps ->
  Forall (spanWithin lo hi) (clearCaptures ps caps).
Proof.
  unfold clearCaptures. revert caps.
  induction ps as [|p ps IH]; intros caps H; simpl; [exact H|].
  apply IH. apply list_set_Forall; simpl; auto.
Qed.

Lemma spanWithin_mono lo hi hi' c :
  hi <= hi' -> spanWithin lo hi c -> spanWithin lo hi' c.
Proof.
  intros Hle. destruct c as [[s e]|]; simpl; [lia | auto].
Qed.

Lemma capsWithin_advance n lo x e :
  endIndex x <= e -> capsWithin n lo x -> capsWithin n lo (mkState e (captures x)).
Proof.
  intros Hle [Hlen Hall]. split; simpl; [exact Hlen|].
  eapply Forall_impl; [|exact Hall]. intros c. apply spanWithin_mono. exact Hle.
Qed.

Section CaptureInvariant.
Variable input : jsstring.
Variables n lo : nat.

Lemma CharacterSetMatcher_keeps A :
  Keeps input n lo (CharacterSetMatcher input A).
Proof.
  intros x c z Hx Hlo Hcaps. unfold CharacterSetMatcher.
  destruct (nth_error input (endIndex x)) as [ch|] eqn:E; [|discriminate].
  destruct (A ch); [|discriminate]. intros Hz.
  assert (endIndex x < length input) by (apply nth_error_Some; congruence).
  exists (mkState (S (endIndex x)) (captures x)). simpl.
  split; [lia|]. split; [unfold inBounds; simpl; lia|].
  split; [apply capsWithin_advance; auto|exact Hz].
Qed.

Lemma RepeatMatcher_keeps m :
  Keeps input n lo m ->
  forall fuel min max greedy ps,
    Keeps input n lo (fun x c => RepeatMatcher m fuel min max greedy ps x c).
Proof.
  intros Hm fuel.
  induction fuel as [|fuel IH]; intros min max greedy ps x c z Hx Hlo Hcaps;
    simpl; [discriminate|].
  set (d := fun y : MatchState =>
              if (min =? 0) && (endIndex y =? endIndex x) then None
              else RepeatMatcher m fuel (pred min) (option_map pred max)
                     greedy ps y c).
  set (xr := mkState (endIndex x) (clearCaptures ps (captures x))).
  assert (Hxr : capsWithin n lo xr).
  { destruct Hcaps as [Hlen Hall]. split; simpl.
    - rewrite clearCaptures_length. exact Hlen.
    - apply clearCaptures_Forall. exact Hall. }
  assert (Hstay : c x = Some z ->
            exists y, endIndex x <= endIndex y /\ inBounds input y
                      /\ capsWithin n lo y /\ c y = Some z)
    by (intros; exists x; auto).
  assert (Hiter : m xr d = Some z ->
            exists y, endIndex x <= endIndex y /\ inBounds input y
                      /\ capsWithin n lo y /\ c y = Some z).
  { intros Hz. destruct (Hm xr d z Hx Hlo Hxr Hz) as (y & Hy & Hb & Hcy & Hd).
    unfold d in Hd.
    destruct ((min =? 0) && (endIndex y =? endIndex x)); [discriminate|].
    simpl in Hy.
    destruct (IH _ _ _ _ y c z Hb ltac:(lia) Hcy Hd) as (y' & Hy' & Hb' & Hcy' & Hc).
    exists y'. repeat split; try apply Hcy'; auto; lia. }
  assert (Hbody :
    (if negb (min =? 0) then m xr d
     else if greedy then match m xr d with Some z0 => Some z0 | None => c x end
     else match c x with Some z0 => Some z0 | None => m xr d end) = Some z ->
    exists y, endIndex x <= endIndex y /\ inBounds input y
              /\ capsWithin n lo y /\ c y = Some z).
  { destruct (negb (min =? 0)); auto.
    destruct greedy.
    - destruct (m xr d) eqn:E; auto; intros Hz; apply Hiter; congruence.
    - destruct (c x) eqn:E; auto. }
  destruct max as [[|k]|]; auto.
Qed.

Lemma compile_keeps r : Keeps input n lo (compile r input).
Proof.
  induction r as [| ch | | neg items | | | r1 IH1 r2 IH2 | r1 IH1 r2 IH2
                 | min max greedy r IH | k r IH]; cbn [compile].
  - intros x c z Hx Hlo Hcaps Hz. exists x; auto.
  - apply CharacterSetMatcher_keeps.
  - apply CharacterSetMatcher_keeps.
  - apply CharacterSetMatcher_keeps.
  - intros x c z Hx Hlo Hcaps. destruct (endIndex x =? 0); [|discriminate].
    intros; exists x; auto.
  - intros x c z Hx Hlo Hcaps.
    destruct (endIndex x =? length input); [|discriminate].
    intros; exists x; auto.
  - intros x c z Hx Hlo Hcaps Hz.
    destruct (IH1 _ _ _ Hx Hlo Hcaps Hz) as (y & Hy & Hb & Hcy & Hc).
    destruct (IH2 _ _ _ Hb ltac:(lia) Hcy Hc) as (y' & Hy' & Hb' & Hcy' & Hc').
    exists y'. repeat split; try apply Hcy'; auto; lia.
  - intros x c z Hx Hlo Hcaps. destruct (compile r1 input x c) eqn:E.
    + intros Hz. apply (IH1 _ _ _ Hx Hlo Hcaps). congruence.
    + apply (IH2 _ _ _ Hx Hlo Hcaps).
  - intros x c z Hx Hlo Hcaps.
    apply (RepeatMatcher_keeps (compile r input) IH); auto.
  - intros x c z Hx Hlo Hcaps Hz.
    destruct (IH _ _ _ Hx Hlo Hcaps Hz) as (y & Hy & Hb & Hcy & Hc).
    eexists; split; [|split; [|split; [|exact Hc]]]; simpl; auto.
    destruct Hcy as [Hlen Hall]. split; simpl.
    + unfold setCapture. rewrite list_set_length. exact Hlen.
    + unfold setCapture. apply list_set_Forall; [simpl; lia | exact Hall].
Qed.
End CaptureInvariant.

(** ** Delimited patterns *)

Lemma skipn_nth_error {A} (l : list A) i a :
  nth_error l i = Some a -> skipn i l = a :: skipn (S i) l.
Proof.
  revert i. induction l as [|b l IH]; intros i H.
  - destruct i; discriminate.
  - destruct i as [|i]; simpl in *.
    + inversion H; reflexivity.
    + apply IH. exact H.
Qed.

Lemma substring_cons s i k a :
  nth_error s i = Some a ->
  substring s i (i + S k) = a :: substring s (S i) (S i + k).
Proof.
  intros H. unfold substring.
  replace (i + S k - i) with (S k) by lia.
  replace (S i + k - S i) with k by lia.
  rewrite (skipn_nth_error s i a H). reflexivity.
Qed.

Lemma substring_empty s i : substring s i (i + 0) = [].
Proof. unfold substring. replace (i + 0 - i) with 0 by lia. reflexivity. Qed.

Lemma RChar_inv input a x c z :
  compile (RChar a) input x c = Some z ->
  nth_error input (endIndex x) = Some a
  /\ c (mkState (S (endIndex x)) (captures x)) = Some z.
Proof.
  cbn [compile]. unfold CharacterSetMatcher.
  destruct (nth_error input (endIndex x)) as [ch|]; [|discriminate].
  destruct (N.eqb a ch) eqn:E; [|discriminate].
  apply N.eqb_eq in E. subst ch. auto.
Qed.

Lemma lits_inv input op r :
  forall x c z,
    inBounds input x ->
    compile (lits op r) input x c = Some z ->
    substring input (endIndex x) (endIndex x + length op) = op
    /\ endIndex x + length op <= length input
    /\ compile r input (mkState (endIndex x + length op) (captures x)) c = Some z.
Proof.
  induction op as [|a op IH]; intros x c z Hx H; cbn [lits length] in *.
  - rewrite substring_empty, Nat.add_0_r. destruct x; auto.
  - change (compile (RChar a) input x (fun y => compile (lits op r) input y c)
            = Some z) in H.
    apply RChar_inv in H. destruct H as [Ha H].
    assert (Hlt : endIndex x < length input) by (apply nth_error_Some; congruence).
    assert (Hx' : inBounds input (mkState (S (endIndex x)) (captures x)))
      by (unfold inBounds; simpl; lia).
    destruct (IH _ _ _ Hx' H) as (Hs & Hl & Hr).
    cbn [endIndex captures] in Hs, Hl, Hr.
    rewrite (substring_cons _ _ _ _ Ha), Hs.
    replace (endIndex x + S (length op)) with (S (endIndex x) + length op) by lia.
    auto.
Qed.

Lemma closing_inv input cl :
  forall x c z,
    inBounds input x ->
    compile (closing cl) input x c = Some z ->
    substring input (endIndex x) (endIndex x + length cl) = cl
    /\ endIndex x + length cl <= length input
    /\ c (mkState (endIndex x + length cl) (captures x)) = Some z.
Proof.
  induction cl as [|a cl IH]; intros x c z Hx H.
  - cbn [closing compile length] in *.
    rewrite substring_empty, Nat.add_0_r. destruct x; auto.
  - assert (H' : compile (RChar a) input x
                   (fun y => compile (closing cl) input y c) = Some z).
    { destruct cl; exact H. }
    clear H. apply RChar_inv in H'. destruct H' as [Ha H].
    assert (Hlt : endIndex x < length input) by (apply nth_error_Some; congruence).
    assert (Hx' : inBounds input (mkState (S (endIndex x)) (captures x)))
      by (unfold inBounds; simpl; lia).
    destruct (IH _ _ _ Hx' H) as (Hs & Hl & Hr).
    cbn [endIndex captures] in Hs, Hl, Hr. cbn [length].
    rewrite (substring_cons _ _ _ _ Ha), Hs.
    replace (endIndex x + S (length cl)) with (S (endIndex x) + length cl) by lia.
    auto.
Qed.

(** A match of a delimited pattern: the delimiters stand at both ends,
    group 1 is what is between them, and every other group lies inside
    group 1. *)
Lemma delimited_match input op body cl n i z :
  1 <= n -> i <= length input ->
  compile (delimited op body cl) input (mkState i (repeat None n))
    (fun y => Some y) = Some z ->
  exists ey,
    i + length op <= ey /\ endIndex z = ey + length cl
    /\ ey + length cl <= length input
    /\ substring input i (i + length op) = op
    /\ substring input ey (ey + length cl) = cl
    /\ nth 0 (captures z) None = Some (i + length op, ey)
    /\ length (captures z) = n
    /\ Forall (spanWithin (i + length op) ey) (captures z).
Proof.
  intros Hn Hi H. unfold delimited in H.
  apply lits_inv in H; [|exact Hi]. cbn [endIndex captures] in H.
  destruct H as (Hop & Hlen & H).
  change (compile body input (mkState (i + length op) (repeat None n))
            (fun y => compile (closing cl) input
                        (mkState (endIndex y)
                           (setCapture 1 (Some (i + length op, endIndex y))
                              (captures y)))
                        (fun y => Some y)) = Some z) in H.
  assert (Hx1 : inBounds input (mkState (i + length op) (repeat None n)))
    by (unfold inBounds; simpl; lia).
  assert (Hc1 : capsWithin n (i + length op)
                  (mkState (i + length op) (repeat None n))).
  { split; simpl; [apply repeat_length|].
    apply Forall_forall. intros c Hc. apply repeat_spec in Hc. subst c.
    exact I. }
  destruct (compile_keeps input n (i + length op) body _ _ _
              Hx1 (Nat.le_refl _) Hc1 H)
    as (y & Hy & Hb & [Hcl Hcaps] & Hk).
  cbn [endIndex] in Hy.
  apply closing_inv in Hk; [|exact Hb]. cbn [endIndex captures] in Hk.
  destruct Hk as (Hcls & Hend & Hz). inversion Hz; subst z; clear Hz.
  exists (endIndex y). cbn [endIndex captures].
  repeat split; auto.
  - unfold setCapture. destruct (captures y) as [|c0 caps]; simpl in *; [lia|].
    reflexivity.
  - unfold setCapture. rewrite list_set_length. exact Hcl.
  - unfold setCapture. apply list_set_Forall; [simpl; lia | exact Hcaps].
Qed.

Lemma exec_preserves R S r R' :
  exec R S = (r, R') ->
  source R' = source R /\ nCaptures R' = nCaptures R /\ global R' = global R.
Proof.
  unfold exec. destruct (firstMatch _ _ _) as [[i y]|];
    intros H; inversion H; subst; destruct (global R) eqn:G; simpl; auto.
Qed.

(** Where a detection comes from: a successful [exec] of its pattern on
    the line, whose first truthy group is the text. *)
Lemma scanPattern_emitted fuel :
  forall p rawLine lineIndex lang strings d,
    In d (fst (scanPattern fuel p rawLine lineIndex lang strings)) ->
    In d strings
    \/ exists R ma R' content,
         source R = source (regex p) /\ nCaptures R = nCaptures (regex p)
         /\ exec R rawLine = (Some ma, R')
         /\ orElse (orElse (at_ ma 1) (at_ ma 2)) (at_ ma 3) = Some content
         /\ content <> []
         /\ d = mkDetected content lineIndex (index ma)
                  (index ma + length (match at_ ma 0 with Some s => s | None => [] end))
                  (name p) lang.
Proof.
  induction fuel as [|fuel IH]; intros p rawLine lineIndex lang strings d;
    cbn [scanPattern]; [auto|].
  destruct (exec (regex p) rawLine) as [[ma|] R'] eqn:E; [|auto].
  destruct (exec_preserves _ _ _ _ E) as (Hsrc & Hn & _).
  assert (Hskip : forall strings',
    In d (fst (scanPattern fuel (mkPattern (name p) R') rawLine lineIndex lang strings')) ->
    In d strings'
    \/ exists R ma R' content,
         source R = source (regex p) /\ nCaptures R = nCaptures (regex p)
         /\ exec R rawLine = (Some ma, R')
         /\ orElse (orElse (at_ ma 1) (at_ ma 2)) (at_ ma 3) = Some content
         /\ content <> []
         /\ d = mkDetected content lineIndex (index ma)
                  (index ma + length (match at_ ma 0 with Some s => s | None => [] end))
                  (name p) lang).
  { intros strings' H. destruct (IH _ _ _ _ _ _ H) as [Hin|Hex]; [auto|].
    right. destruct Hex as (R & ma' & R'' & content & H1 & H2 & Hrest).
    exists R, ma', R'', content. simpl in H1, H2.
    split; [congruence|]. split; [congruence|]. exact Hrest. }
  destruct (orElse (orElse (at_ ma 1) (at_ ma 2)) (at_ ma 3))
    as [[|c0 cs]|] eqn:Ec; auto.
  destruct (length (trim (c0 :: cs)) <? 2); auto.
  destruct (looksLikeCode (c0 :: cs)); auto.
  assert (Hnew : forall d0,
    d0 = mkDetected (c0 :: cs) lineIndex (index ma)
           (index ma + length (match at_ ma 0 with Some s => s | None => [] end))
           (name p) lang ->
    In d (strings ++ [d0]) ->
    In d strings
    \/ exists R ma R' content,
         source R = source (regex p) /\ nCaptures R = nCaptures (regex p)
         /\ exec R rawLine = (Some ma, R')
         /\ orElse (orElse (at_ ma 1) (at_ ma 2)) (at_ ma 3) = Some content
         /\ content <> []
         /\ d = mkDetected content lineIndex (index ma)
                  (index ma + length (match at_ ma 0 with Some s => s | None => [] end))
                  (name p) lang).
  { intros d0 Hd0 Hin. apply in_app_iff in Hin. destruct Hin as [Hin|[Hin|[]]];
      [auto|].
    right. exists (regex p), ma, R', (c0 :: cs).
    repeat split; auto; congruence. }
  destruct (negb (global R')).
  - cbn [fst]. intros H. eapply Hnew; [reflexivity|exact H].
  - intros H. destruct (Hskip _ H) as [Hin|Hex]; [|auto].
    eapply Hnew; [reflexivity|exact Hin].
Qed.

Lemma in_detect_exec D L d :
  In d (detect D L) ->
  exists rawLine p R ma R' content,
    nth_error (split Ch.LF D) (line d) = Some rawLine
    /\ In p (getStringPatterns L)
    /\ source R = source (regex p) /\ nCaptures R = nCaptures (regex p)
    /\ exec R rawLine = (Some ma, R')
    /\ orElse (orElse (at_ ma 1) (at_ ma 2)) (at_ ma 3) = Some content
    /\ content <> []
    /\ d = mkDetected content (line d) (index ma)
             (index ma + length (match at_ ma 0 with Some s => s | None => [] end))
             (name p) L.
Proof.
  rewrite detect_collect. intros H.
  destruct (in_collect _ _ _ _ H) as (k & rawLine & Hk & Hin).
  rewrite extractStringsFromLine_flat, in_flat_map in Hin.
  destruct Hin as (p & Hp & Hd). unfold matchesOf in Hd.
  destruct (scanPattern_emitted _ _ _ _ _ _ _ Hd) as [[]|Hex].
  destruct Hex as (R & ma & R' & content & H1 & H2 & H3 & H4 & H5 & H6).
  exists rawLine, p, R, ma, R', content.
  assert (Hl : line d = k) by (rewrite H6; reflexivity).
  rewrite Hl. repeat split; auto.
Qed.

Lemma exec_delimited R S ma R' op body cl content :
  source R = delimited op body cl ->
  1 <= nCaptures R <= 2 ->
  exec R S = (Some ma, R') ->
  orElse (orElse (at_ ma 1) (at_ ma 2)) (at_ ma 3) = Some content ->
  content <> [] ->
  exists e,
    at_ ma 0 = Some (substring S (index ma) e)
    /\ index ma + length op <= e - length cl
    /\ length cl <= e /\ e <= length S
    /\ substring S (index ma) (index ma + length op) = op
    /\ substring S (e - length cl) e = cl
    /\ content = substring S (index ma + length op) (e - length cl).
Proof.
  intros Hsrc Hn He Hor Hne. unfold exec in He.
  destruct (firstMatch _ _ _) as [[i r]|] eqn:E; [|discriminate].
  inversion He; subst ma R'; clear He.
  apply firstMatch_some in E. destruct E as [Hin Hm].
  apply in_seq in Hin. rewrite Hsrc in Hm.
  destruct (delimited_match S op body cl (nCaptures R) i r
              ltac:(lia) ltac:(lia) Hm)
    as (ey & Hlo & Hend & Hlen & Hop & Hcl & Hc1 & Hcn & Hall).
  exists (endIndex r). cbn [index at_ elems nth] in *.
  rewrite Hend. replace (ey + length cl - length cl) with ey by lia.
  split; [reflexivity|]. split; [exact Hlo|]. split; [lia|].
  split; [exact Hlen|]. split; [exact Hop|]. split; [exact Hcl|].
  unfold at_ in Hor. cbn [elems nth] in Hor.
  destruct (captures r) as [|c1 [|c2 [|c3 rest]]]; simpl in Hcn; try lia;
    simpl in Hc1; subst c1; simpl in Hor.
  - destruct (substring S (i + length op) ey) as [|a t] eqn:Es; simpl in Hor;
      [discriminate|].
    inversion Hor; reflexivity.
  - destruct (substring S (i + length op) ey) as [|a t] eqn:Es; simpl in Hor.
    + exfalso.
      assert (Hz : ey - (i + length op) = 0).
      { rewrite <- (substring_length S (i + length op) ey) by lia.
        rewrite Es. reflexivity. }
      inversion Hall as [|? ? _ Hrest]; subst.
      inversion Hrest as [|? ? Hc2 _]; subst.
      destruct c2 as [[s e]|]; simpl in Hc2, Hor; [|discriminate].
      assert (Hse : substring S s e = []).
      { unfold substring. replace (e - s) with 0 by lia. reflexivity. }
      rewrite Hse in Hor. simpl in Hor. discriminate.
    + inversion Hor; reflexivity.
Qed.

Lemma patterns_delimited L p :
  In p (getStringPatterns L) ->
  exists body,
    source (regex p)
    = delimited (fst (delimitersOf (name p))) body (snd (delimitersOf (name p)))
    /\ 1 <= nCaptures (regex p) <= 2.
Proof.
  intros Hp.
  destruct (getStringPatterns_cases L) as [H|[H|[H|H]]]; rewrite H in Hp;
    simpl in Hp; decompose [or] Hp; try contradiction; subst p;
    eexists; (split; [reflexivity | vm_compute; lia]).
Qed.

Lemma in_detect_between D L d :
  In d (detect D L) ->
  exists rawLine,
    nth_error (split Ch.LF D) (line d) = Some rawLine
    /\ let op := fst (delimitersOf (quoteType d)) in
       let cl := snd (delimitersOf (quoteType d)) in
       startChar d + length op <= endChar d - length cl
       /\ length cl <= endChar d
       /\ substring rawLine (startChar d) (startChar d + length op) = op
       /\ substring rawLine (endChar d - length cl) (endChar d) = cl
       /\ text d = substring rawLine (startChar d + length op)
                     (endChar d - length cl).
Proof.
  intros H.
  destruct (in_detect_exec D L d H)
    as (rawLine & p & R & ma & R' & content & Hl & Hp & Hsrc & Hn & He & Hor
        & Hne & Hd).
  exists rawLine. split; [exact Hl|].
  destruct (patterns_delimited L p Hp) as (body & Hshape & Hcaps).
  rewrite <- Hsrc in Hshape. rewrite <- Hn in Hcaps.
  destruct (exec_delimited R rawLine ma R' _ _ _ content Hshape Hcaps He Hor Hne)
    as (e & H0 & Hspan & Hcle & Hlen & Hop & Hcl & Htext).
  assert (Hlo : index ma <= e) by lia.
  rewrite Hd. cbn [quoteType startChar endChar text].
  rewrite H0, (substring_length _ _ _ Hlo Hlen).
  replace (index ma + (e - index ma)) with e by lia.
  cbv zeta. auto.
Qed.

(** The text of a detection is exactly what stands on its line between
    the delimiters of its quote type, and its span starts and ends with
    those delimiters. *)
Theorem text_between_delimiters D L d :
  In d (detect D L) ->
  exists rawLine,
    nth_error (split Ch.LF D) (line d) = Some rawLine
    /\ let op := fst (delimitersOf (quoteType d)) in
       let cl := snd (delimitersOf (quoteType d)) in
       startChar d + length op <= endChar d - length cl
       /\ length cl <= endChar d
       /\ substring rawLine (startChar d) (startChar d + length op) = op
       /\ substring rawLine (endChar d - length cl) (endChar d) = cl
       /\ text d = substring rawLine (startChar d + length op)
                     (endChar d - length cl).
Proof. exact (in_detect_between D L d). Qed.

Lemma text_between_delimiters_witness :
  exists rawLine,
    nth_error (split Ch.LF verbatimLine) 0 = Some rawLine
    /\ 0 + 2 <= 20 - 1 /\ 1 <= 20
    /\ substring rawLine 0 (0 + 2) = [Ch.AT; Ch.DQ]
    /\ substring rawLine (20 - 1) 20 = [Ch.DQ]
    /\ verbatimBody = substring rawLine (0 + 2) (20 - 1).
Proof.
  apply (text_between_delimiters verbatimLine (js "csharp")
           (mkDetected verbatimBody 0 0 20 (js "verbatim") (js "csharp"))).
  vm_compute. right. left. reflexivity.
Defined.

(** ** Detections of one quote type do not overlap *)

Lemma StronglySorted_pair {A} (R : A -> A -> Prop) l a b :
  StronglySorted R l -> In a l -> In b l -> a = b \/ R a b \/ R b a.
Proof.
  induction 1 as [|x l Hs IH Hall]; simpl; [tauto|].
  rewrite Forall_forall in Hall.
  intros [Ha|Ha] [Hb|Hb]; subst; auto.
Qed.

Lemma NoDup_map_inj {A B} (f : A -> B) l a b :
  NoDup (map f l) -> In a l -> In b l -> f a = f b -> a = b.
Proof.
  induction l as [|x l IH]; simpl; [tauto|].
  intros Hnd. inversion Hnd as [|? ? Hx Hl]; subst.
  intros [Ha|Ha] [Hb|Hb] Hf; subst; auto.
  - exfalso. apply Hx. rewrite Hf. apply in_map. exact Hb.
  - exfalso. apply Hx. rewrite <- Hf. apply in_map. exact Ha.
Qed.

Lemma in_detect_chunk D L d :
  In d (detect D L) ->
  exists rawLine p,
    nth_error (split Ch.LF D) (line d) = Some rawLine
    /\ In p (getStringPatterns L) /\ name p = quoteType d
    /\ In d (matchesOf rawLine (line d) L p).
Proof.
  rewrite detect_collect. intros H.
  destruct (in_collect _ _ _ _ H) as (k & rawLine & Hk & Hin).
  destruct (in_extract _ _ _ _ Hin) as (p & Hp & Hd & Hem).
  destruct Hem as (Hl & Hq & _). simpl in Hl.
  exists rawLine, p. rewrite Hl. auto.
Qed.

(** Two detections of the same quote type on the same line are the same
    record or lie side by side: one ends before the other starts. *)
Theorem same_kind_disjoint D L a b :
  In a (detect D L) -> In b (detect D L) ->
  line a = line b -> quoteType a = quoteType b ->
  a = b \/ endChar a <= startChar b \/ endChar b <= startChar a.
Proof.
  intros Ha Hb Hline Hq.
  destruct (in_detect_chunk D L a Ha) as (la & pa & Hla & Hpa & Hna & Hina).
  destruct (in_detect_chunk D L b Hb) as (lb & pb & Hlb & Hpb & Hnb & Hinb).
  rewrite Hline in Hla, Hina.
  assert (la = lb) by congruence. subst lb.
  assert (pa = pb).
  { apply (NoDup_map_inj name (getStringPatterns L)); auto.
    - apply getStringPatterns_names.
    - congruence. }
  subst pb.
  assert (Hwf : wellFormed pa).
  { pose proof (getStringPatterns_wellFormed L) as Hall.
    rewrite Forall_forall in Hall. auto. }
  destruct (matchesOf_spec la (line b) L pa Hwf) as [_ Hs].
  apply (StronglySorted_pair _ _ a b Hs Hina Hinb).
Qed.

Lemma same_kind_disjoint_witness :
  mkDetected (js "ab cd") 0 0 7 (js "double") (js "go")
  = mkDetected (js "ef gh") 0 10 17 (js "double") (js "go")
  \/ 7 <= 10 \/ 17 <= 0.
Proof.
  apply (same_kind_disjoint (dq (js "ab cd") ++ js " + " ++ dq (js "ef gh"))
           (js "go")
           (mkDetected (js "ab cd") 0 0 7 (js "double") (js "go"))
           (mkDetected (js "ef gh") 0 10 17 (js "double") (js "go")));
    [vm_compute; left; reflexivity
    |vm_compute; right; left; reflexivity
    |reflexivity|reflexivity].
Defined.

(** ** Lines are scanned independently *)

Lemma split_nonempty sep s : split sep s <> [].
Proof.
  destruct s as [|c s]; simpl; [discriminate|].
  destruct (c =? sep)%N; [discriminate|].
  destruct (split sep s); discriminate.
Qed.







(** ** Text without quotation marks *)

Lemma lits_fail input op r a :
  In a op -> ~ In a input ->
  forall x c, compile (lits op r) input x c = None.
Proof.
  intros Hin Hno. induction op as [|b op IH]; [contradiction|].
  intros x c. cbn [lits compile]. unfold CharacterSetMatcher.
  destruct (nth_error input (endIndex x)) as [ch|] eqn:E; [|reflexivity].
  destruct (N.eqb b ch) eqn:Eb; [|reflexivity].
  apply N.eqb_eq in Eb. subst ch.
  destruct Hin as [->|Hin].
  - exfalso. apply Hno. eapply nth_error_In; eauto.
  - apply IH. exact Hin.
Qed.

Lemma firstMatch_none m n starts :
  (forall x c, m x c = None) -> firstMatch m n starts = None.
Proof.
  intros H. induction starts as [|i rest IH]; simpl; [reflexivity|].
  rewrite H. exact IH.
Qed.

Lemma scanPattern_no_match fuel p rawLine lineIndex lang strings :
  fst (exec (regex p) rawLine) = None ->
  fst (scanPattern fuel p rawLine lineIndex lang strings) = strings.
Proof.
  destruct fuel as [|fuel]; cbn [scanPattern]; [reflexivity|].
  destruct (exec (regex p) rawLine) as [[ma|] R']; simpl;
    [discriminate | reflexivity].
Qed.

Lemma patterns_open_with_quote L p :
  In p (getStringPatterns L) ->
  exists a, In a (fst (delimitersOf (name p))) /\ In a quoteChars.
Proof.
  intros Hp.
  destruct (getStringPatterns_cases L) as [H|[H|[H|H]]]; rewrite H in Hp;
    simpl in Hp; decompose [or] Hp; try contradiction; subst p;
    [ exists Ch.DQ | exists Ch.SQ | exists Ch.BQ
    | exists Ch.DQ | exists Ch.SQ | exists Ch.DQ | exists Ch.SQ
    | exists Ch.DQ | exists Ch.SQ | exists Ch.DQ
    | exists Ch.DQ | exists Ch.SQ ];
    vm_compute; tauto.
Qed.

Lemma flat_map_nil {A B} (f : A -> list B) l :
  (forall x, In x l -> f x = []) -> flat_map f l = [].
Proof.
  induction l as [|a l IH]; simpl; intros H; [reflexivity|].
  rewrite (H a) by auto. apply IH. auto.
Qed.

Lemma extract_without_quotes rawLine lineIndex lang :
  (forall c, In c rawLine -> ~ In c quoteChars) ->
  extractStringsFromLine rawLine lineIndex lang = [].
Proof.
  intros Hno. rewrite extractStringsFromLine_flat.
  apply flat_map_nil. intros p Hp. unfold matchesOf.
  apply scanPattern_no_match.
  destruct (patterns_delimited lang p Hp) as (body & Hshape & _).
  destruct (patterns_open_with_quote lang p Hp) as (a & Ha & Hq).
  unfold exec. rewrite Hshape. unfold delimited.
  rewrite firstMatch_none; [reflexivity|].
  apply lits_fail with (a := a); [exact Ha|].
  intros Hin. exact (Hno a Hin Hq).
Qed.

Lemma split_In sep s l c : In l (split sep s) -> In c l -> In c s.
Proof.
  revert l. induction s as [|c0 s IH]; intros l; simpl.
  - intros [<-|[]] [].
  - destruct (c0 =? sep)%N.
    + intros [<-|Hl] Hc; [destruct Hc|]. right. eapply IH; eauto.
    + pose proof (split_nonempty sep s) as Hne.
      destruct (split sep s) as [|l0 ls]; [congruence|].
      intros [<-|Hl] Hc.
      * destruct Hc as [->|Hc]; [left; reflexivity|].
        right. apply (IH l0); simpl; auto.
      * right. apply (IH l); simpl; auto.
Qed.

(** A text in which no double quote, single quote or backtick occurs
    yields no detection, whatever the language. *)
Theorem no_quotes_no_detection D L :
  (forall c, In c D -> ~ In c quoteChars) -> detect D L = [].
Proof.
  intros Hno. rewrite detect_collect.
  assert (H : forall lines lineIndex,
             (forall l, In l lines -> In l (split Ch.LF D)) ->
             collect lines lineIndex L = []).
  { induction lines as [|l rest IH]; intros lineIndex Hsub; simpl;
      [reflexivity|].
    rewrite IH by (intros l' Hl'; apply Hsub; simpl; auto).
    rewrite extract_without_quotes; [reflexivity|].
    intros c Hc. apply Hno. apply (split_In Ch.LF D l c); [|exact Hc].
    apply Hsub. simpl. auto. }
  apply H. auto.
Qed.

Lemma no_quotes_no_detection_witness :
  detect (js "let total = price * 2;" ++ [Ch.LF] ++ js "return total") (js "typescript")
  = [].
Proof.
  apply (no_quotes_no_detection
           (js "let total = price * 2;" ++ [Ch.LF] ++ js "return total")
           (js "typescript")).
  intros c Hc Hq. vm_compute in Hc, Hq.
  repeat (destruct Hc as [Hc|Hc];
          [subst c; repeat (destruct Hq as [Hq|Hq]; [discriminate|]); exact Hq|]).
  exact Hc.
Defined.

(** ** Runs of a character class *)

(** A greedy star over a character class, entered at [i] where a run of
    the class extends to [j] and no further, resumes its continuation at
    [j] first. *)
Lemma star_run input A caps c z fuel :
  forall i j,
    i <= j -> j <= length input -> length input - i < fuel ->
    (forall k, i <= k < j ->
       exists ch, nth_error input k = Some ch /\ A ch = true) ->
    (forall ch, nth_error input j = Some ch -> A ch = false) ->
    c (mkState j caps) = Some z ->
    RepeatMatcher (CharacterSetMatcher input A) fuel 0 None true []
      (mkState i caps) c = Some z.
Proof.
  induction fuel as [|fuel IH]; intros i j Hij Hj Hfuel Hrun Hstop Hc; [lia|].
  cbn [RepeatMatcher Nat.eqb negb andb endIndex captures clearCaptures fold_left
       pred option_map].
  unfold CharacterSetMatcher at 1. cbn [endIndex captures].
  destruct (Nat.eq_dec i j) as [->|Hne].
  - destruct (nth_error input j) as [ch|] eqn:E; [|exact Hc].
    rewrite (Hstop ch eq_refl). exact Hc.
  - destruct (Hrun i ltac:(lia)) as (ch & Hch & HA). rewrite Hch, HA.
    replace (S i =? i) with false by (symmetry; apply Nat.eqb_neq; lia).
    rewrite (IH (S i) j); auto; try lia.
    intros k Hk. apply Hrun. lia.
Qed.

(** The same for one or more repetitions. *)
Lemma plus_run input A caps c z fuel i j :
  i < j -> j <= length input -> length input - i <= fuel ->
  (forall k, i <= k < j ->
     exists ch, nth_error input k = Some ch /\ A ch = true) ->
  (forall ch, nth_error input j = Some ch -> A ch = false) ->
  c (mkState j caps) = Some z ->
  RepeatMatcher (CharacterSetMatcher input A) (S fuel) 1 None true []
    (mkState i caps) c = Some z.
Proof.
  intros Hij Hj Hfuel Hrun Hstop Hc.
  cbn [RepeatMatcher Nat.eqb negb andb endIndex captures clearCaptures fold_left
       pred option_map].
  unfold CharacterSetMatcher at 1. cbn [endIndex captures].
  destruct (Hrun i ltac:(lia)) as (ch & Hch & HA). rewrite Hch, HA.
  apply star_run with (j := j); auto; try lia.
  intros k Hk. apply Hrun. lia.
Qed.

Lemma looksLikeCode_true t r :
  In r codePatterns -> test r t = true -> looksLikeCode t = true.
Proof.
  intros Hr Ht. unfold looksLikeCode. apply existsb_exists. exists r. auto.
Qed.

Lemma test_at_start r t z :
  compile r t (mkState 0 (repeat None (length (parens r)))) (fun y => Some y)
  = Some z ->
  test r t = true.
Proof.
  intros H. unfold test, exec. cbn [global source nCaptures].
  rewrite Nat.sub_0_r. cbn [seq firstMatch]. rewrite H. reflexivity.
Qed.

Lemma forallb_nth {A} (f : A -> bool) l k a :
  forallb f l = true -> nth_error l k = Some a -> f a = true.
Proof.
  intros H Hk. rewrite forallb_forall in H. apply H.
  eapply nth_error_In; eauto.
Qed.

Lemma looksLikeCode_identifier t :
  isIdentifier t = true -> looksLikeCode t = true.
Proof.
  destruct t as [|c0 rest]; [discriminate|]. cbn [isIdentifier].
  intros H. apply andb_true_iff in H. destruct H as [H0 Hrest].
  eapply looksLikeCode_true; [left; reflexivity|].
  eapply test_at_start with (z := mkState (length (c0 :: rest)) []).
  cbn [parens app length repeat compile endIndex Nat.eqb].
  unfold CharacterSetMatcher at 1. cbn [endIndex captures nth_error].
  assert (Hc0 : xorb false
                  (existsb (classItemHas c0) [lower; upper; CChar Ch.UNDERSCORE])
                = true).
  { cbn [xorb existsb classItemHas lower upper].
    rewrite orb_false_r, orb_assoc. exact H0. }
  rewrite Hc0.
  apply star_run with (j := S (length rest)); cbn [length]; unfold repeatFuel;
    cbn [endIndex length]; try lia.
  - intros k Hk. destruct k as [|k]; [lia|]. cbn [nth_error].
    destruct (nth_error rest k) as [ch|] eqn:E.
    + exists ch. split; [reflexivity|].
      pose proof (forallb_nth _ _ _ _ Hrest E) as Hw.
      cbn [xorb existsb classItemHas lower upper digit].
      unfold isWordChar in Hw. rewrite orb_false_r.
      rewrite <- !orb_assoc in Hw. exact Hw.
    + apply nth_error_None in E. lia.
  - intros ch Hch. cbn [nth_error] in Hch.
    assert (nth_error rest (length rest) = None) by (apply nth_error_None; lia).
    congruence.
  - cbn [endIndex]. rewrite Nat.eqb_refl. reflexivity.
Qed.

Lemma looksLikeCode_number t :
  isNumber t = true -> looksLikeCode t = true.
Proof.
  destruct t as [|c0 rest]; [discriminate|]. cbn [isNumber].
  intros H.
  eapply looksLikeCode_true; [right; left; reflexivity|].
  eapply test_at_start with (z := mkState (length (c0 :: rest)) []).
  cbn [parens app length repeat compile endIndex Nat.eqb RPlus].
  unfold repeatFuel.
  apply plus_run with (j := S (length rest)); cbn [length endIndex]; try lia.
  - intros k Hk.
    destruct (nth_error (c0 :: rest) k) as [ch|] eqn:E.
    + exists ch. split; [reflexivity|].
      pose proof (forallb_nth _ _ _ _ H E) as Hw.
      cbn [xorb existsb classItemHas]. rewrite orb_false_r. exact Hw.
    + apply nth_error_None in E. cbn [length] in E. lia.
  - intros ch Hch.
    assert (nth_error (c0 :: rest) (S (length rest)) = None)
      by (apply nth_error_None; cbn [length]; lia).
    congruence.
  - cbn [endIndex]. rewrite Nat.eqb_refl. reflexivity.
Qed.

(** No detection has a text that is a single identifier or a number:
    such literals are never reported. *)
Theorem no_identifier_no_number D L d :
  In d (detect D L) ->
  isIdentifier (text d) = false /\ isNumber (text d) = false.
Proof.
  intros H. destruct (in_detect D L d H) as (rawLine & p & _ & _ & Hem).
  unfold emittedBy in Hem. decompose [and] Hem.
  split.
  - destruct (isIdentifier (text d)) eqn:E; [|reflexivity].
    apply looksLikeCode_identifier in E. congruence.
  - destruct (isNumber (text d)) eqn:E; [|reflexivity].
    apply looksLikeCode_number in E. congruence.
Qed.

Lemma no_identifier_no_number_witness :
  isIdentifier (js "ef gh") = false /\ isNumber (js "ef gh") = false.
Proof.
  apply (no_identifier_no_number mixedLine (js "go")
           (mkDetected (js "ef gh") 0 8 15 (js "double") (js "go"))).
  vm_compute. left. reflexivity.
Defined.

(** ** Literals that are found *)

Section QuotedLiteral.
Variables (q : N) (pre body post : jsstring).
Hypothesis q_not_bs : q <> Ch.BSLASH.
Hypothesis body_clean : forall c, In c body -> c <> q /\ c <> Ch.BSLASH.




Hypothesis pre_clean : ~ In q pre.




End QuotedLiteral.





(** ** The loop over the matches ends *)

(** For every pattern of every language a successful [exec] moves the
    pattern's cursor strictly to the right and not past the end of the
    line, so the [while] loop makes at most [length line + 1] calls of
    [exec]: more turns change neither the detections nor the pattern. *)
Theorem scan_loop_terminates L p :
  In p (getStringPatterns L) ->
  (forall from rawLine ma R',
     exec (setLastIndex from (regex p)) rawLine = (Some ma, R') ->
     from < lastIndex R' /\ lastIndex R' <= length rawLine)
  /\ (forall n rawLine lineIndex strings,
        S (length rawLine) <= n ->
        scanPattern n p rawLine lineIndex L strings
        = scanPattern (S (length rawLine)) p rawLine lineIndex L strings).
Proof.
  intros Hp.
  assert (Hwf : wellFormed p).
  { pose proof (getStringPatterns_wellFormed L) as Hall.
    rewrite Forall_forall in Hall. auto. }
  split.
  - intros from rawLine ma R' He.
    destruct (exec_some _ _ _ _ He) as (e & Hfrom & Hie & Hlen & _ & HR & Hne).
    destruct Hwf as [Hg Hc]. cbn [global setLastIndex source] in *.
    rewrite Hg in *. specialize (Hne Hc). subst R'. cbn [lastIndex setLastIndex] in *.
    lia.
  - intros n rawLine lineIndex strings Hn.
    pose proof (getStringPatterns_fresh L) as Hfresh.
    rewrite Forall_forall in Hfresh.
    apply scanPattern_fuel; auto; rewrite (Hfresh p Hp); lia.
Qed.

Lemma scan_loop_terminates_witness :
  (forall from rawLine ma R',
     exec (setLastIndex from (literalG doubleRegex)) rawLine = (Some ma, R') ->
     from < lastIndex R' /\ lastIndex R' <= length rawLine)
  /\ (forall n rawLine lineIndex strings,
        S (length rawLine) <= n ->
        scanPattern n (mkPattern (js "double") (literalG doubleRegex))
          rawLine lineIndex (js "php") strings
        = scanPattern (S (length rawLine))
            (mkPattern (js "double") (literalG doubleRegex))
            rawLine lineIndex (js "php") strings).
Proof.
  apply (scan_loop_terminates (js "php")
           (mkPattern (js "double") (literalG doubleRegex))).
  vm_compute. left. reflexivity.
Defined.

(** ** What a failed scan leaves behind *)

Lemma scanLines_partial {Exn}
    (extract : jsstring -> nat -> jsstring -> Exn + list DetectedString)
    lang lines :
  forall lineIndex k rawLine error (this : StringDetector Exn),
    nth_error lines k = Some rawLine ->
    extract rawLine (lineIndex + k) lang = inl error ->
    (forall j l, j < k -> nth_error lines j = Some l ->
       extract l (lineIndex + j) lang
       = inr (extractStringsFromLine l (lineIndex + j) lang)) ->
    scanLines extract lines lineIndex lang this
    = (Some error,
       mkDetector (detectedStrings this ++ collect (firstn k lines) lineIndex lang)
         (logger this)).
Proof.
  induction lines as [|l rest IH]; intros lineIndex k rawLine error this Hk He Hok.
  - destruct k; discriminate.
  - destruct k as [|k]; simpl in Hk.
    + inversion Hk; subst l. cbn [scanLines firstn collect].
      rewrite Nat.add_0_r in He. rewrite He, app_nil_r.
      destruct this; reflexivity.
    + cbn [scanLines firstn collect].
      pose proof (Hok 0 l ltac:(lia) eq_refl) as H0.
      rewrite Nat.add_0_r in H0. rewrite H0.
      rewrite (IH (S lineIndex) k rawLine error); auto.
      * cbn [detectedStrings logger]. rewrite <- app_assoc. reflexivity.
      * replace (S lineIndex + k) with (lineIndex + S k) by lia. exact He.
      * intros j l' Hj Hl'.
        replace (S lineIndex + j) with (lineIndex + S j) by lia.
        apply Hok; [lia | exact Hl'].
Qed.

(** When the step of the scanning loop throws on line [k] and not
    before, [detectStrings] resolves to the empty list, but the
    detector is left holding the detections of the lines before [k]:
    [getDetectedStrings] returns those, not the empty list.  The error
    logged is the one thrown on line [k]. *)
Theorem failed_scan_keeps_partial {Exn}
    (extract : jsstring -> nat -> jsstring -> Exn + list DetectedString)
    document (this : StringDetector Exn) k rawLine error :
  nth_error (split Ch.LF (vscode.getText document)) k = Some rawLine ->
  extract rawLine k (vscode.languageId document) = inl error ->
  (forall j l, j < k ->
     nth_error (split Ch.LF (vscode.getText document)) j = Some l ->
     extract l j (vscode.languageId document)
     = inr (extractStringsFromLine l j (vscode.languageId document))) ->
  fst (detectStringsWith extract document this) = []
  /\ getDetectedStrings (snd (detectStringsWith extract document this))
     = collect (firstn k (split Ch.LF (vscode.getText document))) 0
         (vscode.languageId document)
  /\ logger (snd (detectStringsWith extract document this))
     = logger this ++ [Log (MsgDetecting (vscode.fileName document));
                       LogError MsgErrorDetecting error].
Proof.
  intros Hk He Hok. unfold detectStringsWith, getDetectedStrings.
  rewrite (scanLines_partial extract _ _ 0 k rawLine error); auto.
  cbn [fst snd logLine detectedStrings logger app].
  rewrite <- app_assoc. auto.
Qed.

Lemma failed_scan_keeps_partial_witness :
  fst (detectStringsWith
         (fun l i g => if i =? 1 then inl 7 else inr (extractStringsFromLine l i g))
         (vscode.mkDocument (js "a.ts") (mixedLine ++ [10]%N ++ templateLine)
            (js "typescript"))
         (mkDetector [] [])) = []
  /\ getDetectedStrings
       (snd (detectStringsWith
         (fun l i g => if i =? 1 then inl 7 else inr (extractStringsFromLine l i g))
         (vscode.mkDocument (js "a.ts") (mixedLine ++ [10]%N ++ templateLine)
            (js "typescript"))
         (mkDetector [] [])))
     = collect (firstn 1 (split Ch.LF (mixedLine ++ [10]%N ++ templateLine))) 0
         (js "typescript")
  /\ logger (snd (detectStringsWith
         (fun l i g => if i =? 1 then inl 7 else inr (extractStringsFromLine l i g))
         (vscode.mkDocument (js "a.ts") (mixedLine ++ [10]%N ++ templateLine)
            (js "typescript"))
         (mkDetector [] [])))
     = [] ++ [Log (MsgDetecting (js "a.ts")); LogError MsgErrorDetecting 7].
Proof.
  apply (failed_scan_keeps_partial
           (fun l i g => if i =? 1 then inl 7 else inr (extractStringsFromLine l i g))
           (vscode.mkDocument (js "a.ts") (mixedLine ++ [10]%N ++ templateLine)
              (js "typescript"))
           (mkDetector [] []) 1 templateLine 7).
  - reflexivity.
  - reflexivity.
  - intros j l Hj Hl. destruct j as [|j]; [reflexivity|lia].
Defined.

(** ** The lines of a document *)

Lemma split_pieces sep s l : In l (split sep s) -> ~ In sep l.
Proof.
  revert l. induction s as [|c s IH]; intros l; simpl.
  - intros [<-|[]] [].
  - destruct (c =? sep)%N eqn:E.
    + intros [<-|Hl]; [intros []|auto].
    + pose proof (split_nonempty sep s) as Hne.
      destruct (split sep s) as [|l0 ls]; [congruence|].
      intros [<-|Hl].
      * intros [Hc|Hc].
        -- subst c. rewrite N.eqb_refl in E. discriminate.
        -- apply (IH l0); simpl; auto.
      * apply IH. simpl. auto.
Qed.

Lemma split_length sep s :
  length (split sep s) = S (count_occ N.eq_dec s sep).
Proof.
  induction s as [|c s IH]; simpl; [reflexivity|].
  destruct (c =? sep)%N eqn:E.
  - apply N.eqb_eq in E. subst c.
    destruct (N.eq_dec sep sep); [|congruence]. simpl. rewrite IH. reflexivity.
  - apply N.eqb_neq in E. destruct (N.eq_dec c sep); [congruence|].
    pose proof (split_nonempty sep s) as Hne.
    destruct (split sep s) as [|l0 ls]; [congruence|]. exact IH.
Qed.

Lemma join_split sep s : join [sep] (split sep s) = s.
Proof.
  induction s as [|c s IH]; simpl; [reflexivity|].
  pose proof (split_nonempty sep s) as Hne.
  destruct (c =? sep)%N eqn:E.
  - apply N.eqb_eq in E. subst c.
    destruct (split sep s) as [|l0 ls]; [congruence|].
    cbn [join app]. f_equal. exact IH.
  - destruct (split sep s) as [|l0 ls]; [congruence|].
    destruct ls as [|l1 ls]; cbn [join app] in *; f_equal; exact IH.
Qed.

(** The lines [detectStrings] scans are the document cut at its line
    feeds: no line holds a line feed, there is one line more than there
    are line feeds, and the lines joined by line feeds are the
    document. *)
Theorem lines_of_document D :
  join [Ch.LF] (split Ch.LF D) = D
  /\ length (split Ch.LF D) = S (count_occ N.eq_dec D Ch.LF)
  /\ forall l, In l (split Ch.LF D) -> ~ In Ch.LF l.
Proof.
  split; [apply join_split|]. split; [apply split_length|].
  intros l. apply split_pieces.
Qed.

Lemma lines_of_document_witness :
  join [Ch.LF] (split Ch.LF (js "a = 1" ++ [13; 10]%N ++ js "b = 2"))
  = js "a = 1" ++ [13; 10]%N ++ js "b = 2"
  /\ length (split Ch.LF (js "a = 1" ++ [13; 10]%N ++ js "b = 2")) = 2
  /\ ~ In Ch.LF (js "a = 1" ++ [13]%N).
Proof.
  destruct (lines_of_document (js "a = 1" ++ [13; 10]%N ++ js "b = 2"))
    as (Hjoin & Hlen & Hfree).
  split; [exact Hjoin|]. split; [exact Hlen|].
  apply Hfree. left. reflexivity.
Defined.

Lemma substring_In s i e c : In c (substring s i e) -> In c s.
Proof.
  unfold substring. intros H.
  rewrite <- (firstn_skipn i s). apply in_or_app. right.
  rewrite <- (firstn_skipn (e - i) (skipn i s)). apply in_or_app. left.
  exact H.
Qed.

(** No detection has a line feed in its text: a literal that runs over
    several lines is never reported as one detection. *)
Theorem no_line_feed_in_text D L d :
  In d (detect D L) -> ~ In Ch.LF (text d).
Proof.
  intros H Hin.
  destruct (in_detect_between D L d H) as (rawLine & Hl & Hrest).
  cbv zeta in Hrest. destruct Hrest as (_ & _ & _ & _ & Ht).
  rewrite Ht in Hin. apply substring_In in Hin.
  apply (split_pieces Ch.LF D rawLine); [|exact Hin].
  eapply nth_error_In; eauto.
Qed.

Lemma no_line_feed_in_text_witness : ~ In Ch.LF (js "ef gh").
Proof.
  apply (no_line_feed_in_text (js "x = 1;" ++ [13; 10]%N ++ mixedLine ++ [13]%N)
           (js "python")
           (mkDetected (js "ef gh") 1 8 15 (js "double") (js "python"))).
  vm_compute. left. reflexivity.
Defined.

(** ** Quote types and languages *)

(** The quote type of a detection is one its language has a pattern
    for: [double] and [single] in every language, [template] only under
    the ECMAScript tags, the triple quotes only under [python],
    [verbatim] only under [csharp] and [fsharp]. *)
Theorem kind_gating D L d :
  In d (detect D L) ->
  isBaseKind d = true
  \/ (quoteType d = js "template" /\ isOneOf L ecmaScriptTags = true)
  \/ ((quoteType d = js "triple-double" \/ quoteType d = js "triple-single")
      /\ isOneOf L ["python"%string] = true)
  \/ (quoteType d = js "verbatim"
      /\ isOneOf L ["csharp"%string; "fsharp"%string] = true).
Proof.
  intros H. destruct (in_detect D L d H) as (rawLine & p & _ & Hp & Hem).
  destruct Hem as (_ & Hq & _). unfold isBaseKind. rewrite Hq. clear Hq H.
  unfold getStringPatterns in Hp. fold ecmaScriptTags in Hp.
  destruct (isOneOf L ecmaScriptTags) eqn:E1;
    [|destruct (isOneOf L ["python"%string]) eqn:E2;
      [|destruct (isOneOf L ["csharp"%string; "fsharp"%string]) eqn:E3;
        [|destruct (isOneOf L ["php"%string])]]];
    simpl in Hp; decompose [or] Hp; try contradiction; subst p;
    cbn [name]; auto 10.
Qed.

Lemma kind_gating_witness :
  isBaseKind (mkDetected verbatimBody 0 0 20 (js "verbatim") (js "csharp")) = true
  \/ (js "verbatim" = js "template" /\ isOneOf (js "csharp") ecmaScriptTags = true)
  \/ ((js "verbatim" = js "triple-double" \/ js "verbatim" = js "triple-single")
      /\ isOneOf (js "csharp") ["python"%string] = true)
  \/ (js "verbatim" = js "verbatim"
      /\ isOneOf (js "csharp") ["csharp"%string; "fsharp"%string] = true).
Proof.
  apply (kind_gating verbatimLine (js "csharp")
           (mkDetected verbatimBody 0 0 20 (js "verbatim") (js "csharp"))).
  vm_compute. right. left. reflexivity.
Defined.





Lemma filter_map_swap {A B} (f : B -> bool) (g : A -> B) l :
  filter f (map g l) = map g (filter (fun x => f (g x)) l).
Proof.
  induction l as [|a l IH]; simpl; [reflexivity|].
  destruct (f (g a)); simpl; rewrite IH; reflexivity.
Qed.


Lemma isOneOf_true L tags :
  isOneOf L tags = true -> exists t, In t tags /\ L = js t.
Proof.
  unfold isOneOf. intros H. apply existsb_exists in H.
  destruct H as (t & Ht & He). apply jsstring_eqb_eq in He. eauto.
Qed.

(** Languages of one family are scanned alike: for two ECMAScript tags,
    or for [csharp] and [fsharp], the detections of a text differ only
    in the language tag of the records. *)
Theorem same_family_same_detections D L1 L2 :
  (isOneOf L1 ecmaScriptTags = true /\ isOneOf L2 ecmaScriptTags = true)
  \/ (isOneOf L1 ["csharp"%string; "fsharp"%string] = true
      /\ isOneOf L2 ["csharp"%string; "fsharp"%string] = true) ->
  detect D L2 = map (withLanguageId L2) (detect D L1).
Proof.
  intros H. rewrite !detect_collect. apply collect_lang.
  destruct H as [[H1 H2]|[H1 H2]].
  - rewrite (getStringPatterns_ecmaScript L1 H1),
            (getStringPatterns_ecmaScript L2 H2). reflexivity.
  - apply isOneOf_true in H1, H2.
    destruct H1 as (t1 & Ht1 & ->). destruct H2 as (t2 & Ht2 & ->).
    simpl in Ht1, Ht2. decompose [or] Ht1; decompose [or] Ht2;
      try contradiction; subst; reflexivity.
Qed.

Lemma same_family_same_detections_witness :
  detect verbatimLine (js "fsharp")
  = map (withLanguageId (js "fsharp")) (detect verbatimLine (js "csharp")).
Proof.
  apply (same_family_same_detections verbatimLine (js "csharp") (js "fsharp")).
  right. split; reflexivity.
Defined.

(** ** The Concise transform *)

Lemma join_app sep a b :
  a <> [] -> b <> [] ->
  join sep (a ++ b) = join sep a ++ sep ++ join sep b.
Proof.
  intros Ha Hb. induction a as [|p a IH]; [congruence|].
  destruct a as [|p' a].
  - destruct b as [|q b]; [congruence|]. reflexivity.
  - change (join sep ((p :: p' :: a) ++ b))
      with (p ++ sep ++ join sep ((p' :: a) ++ b)).
    rewrite IH by discriminate.
    change (join sep (p :: p' :: a)) with (p ++ sep ++ join sep (p' :: a)).
    rewrite <- !app_assoc. reflexivity.
Qed.

Lemma count_join sep parts :
  parts <> [] -> (forall l, In l parts -> ~ In sep l) ->
  count_occ N.eq_dec (join [sep] parts) sep = length parts - 1.
Proof.
  induction parts as [|p parts IH]; [congruence|]. intros _ Hfree.
  assert (Hp : count_occ N.eq_dec p sep = 0)
    by (apply count_occ_not_In; apply Hfree; simpl; auto).
  destruct parts as [|p' parts].
  - simpl. exact Hp.
  - change (join [sep] (p :: p' :: parts))
      with (p ++ [sep] ++ join [sep] (p' :: parts)).
    rewrite !count_occ_app, Hp, IH; [|discriminate|intros; apply Hfree; simpl; auto].
    simpl. destruct (N.eq_dec sep sep); [|congruence]. lia.
Qed.

(** [Concise] keeps a prefix of the text and appends three dots.  With
    [s] spaces in the text the prefix ends just before space number
    [max 1 ((s + 1) / 2)], or is the whole text when there is no such
    space; so a text without a space only grows by the dots. *)
Theorem concise_keeps_prefix text :
  exists kept rest,
    text = kept ++ rest
    /\ conciseEnhancer text = kept ++ js "..."
    /\ (rest = [] \/ exists r, rest = 32%N :: r)
    /\ count_occ N.eq_dec kept 32%N
       = Nat.max 1 (S (count_occ N.eq_dec text 32%N) / 2) - 1
    /\ (~ In 32%N text -> kept = text).
Proof.
  unfold conciseEnhancer.
  pose proof (split_length 32%N text) as Hlen.
  pose proof (join_split 32%N text) as Hjoin.
  pose proof (split_pieces 32%N text) as Hfree.
  set (ws := split 32%N text) in *.
  set (k := Nat.max 1 (length ws / 2)).
  assert (Hk1 : 1 <= k) by (unfold k; lia).
  assert (Hk : k <= length ws).
  { unfold k. assert (length ws / 2 <= length ws)
      by (apply Nat.Div0.div_le_upper_bound; lia). lia. }
  assert (Hne : firstn k ws <> []).
  { intros E. apply (f_equal (@length _)) in E.
    rewrite length_firstn in E. simpl in E. lia. }
  assert (Hcount : count_occ N.eq_dec (join [32%N] (firstn k ws)) 32%N = k - 1).
  { rewrite count_join; [rewrite length_firstn; lia | exact Hne |].
    intros l Hl. apply Hfree.
    rewrite <- (firstn_skipn k ws). apply in_or_app. auto. }
  assert (Hsplit : text = join [32%N] (firstn k ws)
                          ++ match skipn k ws with
                             | [] => []
                             | _ :: _ => [32%N] ++ join [32%N] (skipn k ws)
                             end).
  { rewrite <- Hjoin at 1. rewrite <- (firstn_skipn k ws) at 1.
    destruct (skipn k ws) as [|l ls] eqn:Es.
    - rewrite !app_nil_r. reflexivity.
    - rewrite join_app by (auto; discriminate). reflexivity. }
  exists (join [32%N] (firstn k ws)).
  eexists. split; [exact Hsplit|]. split; [reflexivity|].
  split; [|split].
  - destruct (skipn k ws); [left; reflexivity|right; eexists; reflexivity].
  - rewrite Hcount. unfold k. rewrite Hlen. reflexivity.
  - intros Hno. destruct (skipn k ws) as [|l ls].
    + rewrite app_nil_r in Hsplit. congruence.
    + exfalso. apply Hno. rewrite Hsplit. apply in_or_app. right. simpl. auto.
Qed.

Lemma concise_keeps_prefix_witness :
  conciseEnhancer (js "Welcome") = js "Welcome" ++ js "...".
Proof.
  destruct (concise_keeps_prefix (js "Welcome"))
    as (kept & rest & _ & Hc & _ & _ & Hwhole).
  rewrite Hc, Hwhole; [reflexivity|].
  vm_compute. intuition discriminate.
Defined.

(** ** The panel and its commands *)

Lemma stored_after_scan {Exn} document (this : StringDetector Exn) :
  getDetectedStrings (snd (detectStrings document this))
  = detect (vscode.getText document) (vscode.languageId document).
Proof.
  unfold getDetectedStrings, detectStrings, detectStringsWith.
  rewrite scanLines_collect, detect_collect. reflexivity.
Qed.

Lemma newRange_ordered l s e :
  s < e ->
  newRange (mkPosition l s) (mkPosition l e)
  = mkRange (mkPosition l s) (mkPosition l e).
Proof.
  intros H. unfold newRange, isBefore. cbn [posLine character].
  rewrite Nat.ltb_irrefl, Nat.eqb_refl.
  replace (e <? s) with false by (symmetry; apply Nat.ltb_ge; lia).
  reflexivity.
Qed.

Lemma detection_shape D L d :
  In d (detect D L) -> text d <> [] /\ startChar d < endChar d.
Proof.
  intros H. destruct (in_detect D L d H) as (rawLine & p & _ & _ & Hem).
  unfold emittedBy in Hem. decompose [and] Hem. split; [|assumption].
  intros E. rewrite E in *. simpl in *. lia.
Qed.


(** Every item of the panel can be translated and enhanced: with an
    editor open the handlers pass on the text of the detection and the
    selection from its start to its end on its line; without one they
    only warn. *)
Theorem items_dispatch {Exn} document (this : StringDetector Exn) uri :
  Forall (fun item =>
    handleTranslateString (Some item) true
    = TranslateText (item_text item)
        (mkSelection (mkPosition (item_line item) (item_startChar item))
                     (mkPosition (item_line item) (item_endChar item)))
    /\ handleEnhanceString (Some item) true
       = EnhanceText (item_text item)
           (mkSelection (mkPosition (item_line item) (item_startChar item))
                        (mkPosition (item_line item) (item_endChar item)))
    /\ handleTranslateString (Some item) false = Warning (js "No active editor found")
    /\ handleEnhanceString (Some item) false = Warning (js "No active editor found"))
    (getChildren None uri (snd (detectStrings document this))).
Proof.
  unfold getChildren. rewrite stored_after_scan. unfold createStringItems.
  apply Forall_forall. intros item Hin. apply in_map_iff in Hin.
  destruct Hin as (d & <- & Hd).
  destruct (detection_shape _ _ d Hd) as [Hne Hlt].
  unfold handleTranslateString, handleEnhanceString,
    item_text, item_line, item_startChar, item_endChar.
  cbn [detectedString].
  destruct (text d) as [|c cs] eqn:E; [congruence|].
  cbn [truthy negb]. rewrite (newRange_ordered _ _ _ Hlt).
  cbn [rangeStart rangeEnd]. auto.
Qed.


